(** * workergroup: linked groups of goroutines

    A model of [workergroup.go].  A [Group] is a template of replicated
    workers and ordered cleaners; [Start] launches one goroutine per
    replica plus the collector goroutine [Instance.run]; the client talks
    to the running [Instance] through [Wait], [Done] and [Abort].

    Goroutines are modelled as small processes whose atomic steps are the
    channel operations and shared-memory accesses of the Go source, and a
    run of the program is a schedule: the list of steps in the order the
    Go scheduler happened to take them.  Properties of "every run" are
    properties of every schedule. *)

From Stdlib Require Import ZArith Lia.
From stdpp Require Import list.

Set Default Proof Using "Type".
Local Open Scope Z_scope.

(** ** Errors and channels *)

(** Go's [error] values.  [NonErrorAbort] is the package-level sentinel
    (an exported variable, so client code can return it as well); every
    other error is identified by a number.  The nil error is [None]. *)
Inductive error : Type :=
| NonErrorAbort
| WorkerError (id : nat).

Global Instance error_eq_dec : EqDecision error.
Proof. solve_decision. Defined.

(** The [abort] and [done] channels are [chan bool] on which nothing is
    ever sent: all that matters is whether the channel has been closed. *)
Inductive chan : Type := Open | Closed.

Global Instance chan_eq_dec : EqDecision chan.
Proof. solve_decision. Defined.

(** [case <-c:] in a [select] is ready, and [<-c] returns, only once [c]
    is closed. *)
Definition ready (c : chan) : bool :=
  match c with Closed => true | Open => false end.

(** [close(c)]; closing a closed channel panics ([None]). *)
Definition close (c : chan) : option chan :=
  match c with Open => Some Closed | Closed => None end.

(** Go's [int] on the 64-bit platforms: [total++] wraps around. *)
Definition wrap64 (z : Z) : Z := (z + 2 ^ 63) mod 2 ^ 64 - 2 ^ 63.

(** ** Workers and cleaners *)

(** What a [Worker] does with its [abort] channel, and how it ends.
    [Poll] is [select { case <-abort: ... default: ... }], [Await] is a
    blocking [<-abort], [Choice] is any branch the worker takes on its own
    (on [data], on other channels, on time), resolved by the run. *)
Inductive Worker : Type :=
| Return (e : option error)
| Poll (aborted running : Worker)
| Await (k : Worker)
| Choice (l r : Worker).

(** The three methods of an [Instance]. *)
Inductive Method : Type := MWait | MDone | MAbort.

Global Instance Method_eq_dec : EqDecision Method.
Proof. solve_decision. Defined.

(** What a run leaves behind, in the order it happened. *)
Inductive Event : Type :=
| EvReturn (r : nat) (e : option error)  (* replica [r]'s worker returned [e] *)
| EvRecv (r : nat) (e : option error)    (* the collector received it from [rtn] *)
| EvSetErr (e : error)                   (* [in.err = err] *)
| EvAbort                                (* the collector closed [in.abort] *)
| EvClean (k : nat)                      (* cleaner [k] was called and returned *)
| EvCheck (aborted : bool)               (* the [select] after the cleaners *)
| EvSentinel                             (* the [if in.err == nil] under it *)
| EvDone                                 (* [close(in.done)] *)
| EvInvoke (m : Method)                  (* a client called a method *)
| EvPanic.

Global Instance Event_eq_dec : EqDecision Event.
Proof. solve_decision. Defined.

(** ** Reading a trace *)

(** The results the collector took from [rtn], in arrival order. *)
Definition recv_of (ev : Event) : option (option error) :=
  match ev with EvRecv _ e => Some e | _ => None end.
Definition received (tr : list Event) : list (option error) := omap recv_of tr.

(** The non-nil errors among them, and the last one. *)
Definition failures (rs : list (option error)) : list error := omap id rs.
Definition last_failure (rs : list (option error)) : option error :=
  last (failures rs).

(** What the collector's [select] after the cleaners saw on [in.abort]. *)
Definition check_of (ev : Event) : option bool :=
  match ev with EvCheck b => Some b | _ => None end.
Definition checked (tr : list Event) : option bool := head (omap check_of tr).

(** The cleaners that have run, in the order they ran. *)
Definition clean_of (ev : Event) : option nat :=
  match ev with EvClean k => Some k | _ => None end.
Definition cleaned (tr : list Event) : list nat := omap clean_of tr.

(** The part of a trace before [close(in.done)]. *)
Fixpoint before_done (tr : list Event) : list Event :=
  match tr with
  | [] => []
  | EvDone :: _ => []
  | ev :: tr' => ev :: before_done tr'
  end.

(** The steps of the collector. *)
Definition collector_event (ev : Event) : bool :=
  match ev with
  | EvRecv _ _ | EvSetErr _ | EvAbort | EvClean _ | EvCheck _ | EvSentinel
  | EvDone => true
  | _ => false
  end.

(** What [Wait] returns for a run whose last failure is [e] and whose
    check of [in.abort] saw [aborted]. *)
Definition final_err (aborted : bool) (e : option error) : option error :=
  match e with
  | Some _ => e
  | None => if aborted then Some NonErrorAbort else None
  end.

(** A [Cleaner] works on the [data] it is given. *)
Abbreviation Cleaner Data := (Data -> Data) (only parsing).

Section WorkerGroup.

(** The [data interface{}] value handed to workers and cleaners. *)
Context {Data : Type}.

(** ** Group *)

Record Group : Type := mkGroup {
  counts : list Z;
  workers : list Worker;
  cleaners : list (Cleaner Data);
}.

(** [new(Group)]. *)
Definition empty : Group := mkGroup [] [] [].

(** [Group.Add]; [NumCPU] is what [runtime.NumCPU()] returns at the call. *)
Definition Add (NumCPU : Z) (count : Z) (worker : Worker) (wg : Group) : Group :=
  let count := if count <=? 0 then NumCPU else count in
  {| workers := workers wg ++ [worker];
     counts := counts wg ++ [count];
     cleaners := cleaners wg |}.

(** [Group.AddCleaner]. *)
Definition AddCleaner (clean : Cleaner Data) (wg : Group) : Group :=
  {| workers := workers wg;
     counts := counts wg;
     cleaners := cleaners wg ++ [clean] |}.

(** ** Instance and goroutines *)

Record Instance : Type := mkInstance {
  abort : chan;
  done : chan;
  err : option error;
}.

(** A replica launched by [go w(i)]: it runs [wg.workers[i]], then blocks
    sending the result on the unbuffered [rtn], then is gone. *)
Inductive Goroutine : Type :=
| Running (i : nat) (w : Worker)
| Sending (i : nat) (e : option error)
| Exited (i : nat).

(** Where the collector [Instance.run] stands. *)
Inductive Collector : Type :=
| CRecv (i : Z)               (* [err := <-rtn], iteration [i] *)
| CSetErr (i : Z) (e : error) (* [in.err = err] *)
| CSelect (i : Z)             (* [select { case <-in.abort: default: ... }] *)
| CClose (i : Z)              (* [close(in.abort)] *)
| CClean (k : nat)            (* [c(data)] for the [k]-th cleaner *)
| CFinalSelect                (* [select { case <-in.abort: ... default: }] *)
| CFinalSet                   (* [if in.err == nil { in.err = NonErrorAbort }] *)
| CCloseDone                  (* [close(in.done)] *)
| CExit.

Global Instance Collector_eq_dec : EqDecision Collector.
Proof. solve_decision. Defined.

(** Where a client's call of a method stands. *)
Inductive Call : Type :=
| AbortSelect | AbortClose | AbortReturned
| WaitRecv | WaitRead | WaitReturned (v : option error)
| DoneSelect | DoneReturned (b : bool).

Definition enter (m : Method) : Call :=
  match m with MWait => WaitRecv | MDone => DoneSelect | MAbort => AbortSelect end.

Record State : Type := mkState {
  inst : Instance;
  data : Data;
  goroutines : list Goroutine;
  collector : Collector;
  run_cleaners : list (Cleaner Data);   (* the [cleaners] argument of [run] *)
  run_total : Z;                 (* the [total] argument of [run] *)
  calls : list Call;
  trace : list Event;
  panicked : bool;
}.

Definition set_inst (s : State) (x : Instance) : State :=
  mkState x (data s) (goroutines s) (collector s) (run_cleaners s)
          (run_total s) (calls s) (trace s) (panicked s).
Definition set_data (s : State) (x : Data) : State :=
  mkState (inst s) x (goroutines s) (collector s) (run_cleaners s)
          (run_total s) (calls s) (trace s) (panicked s).
Definition set_goroutines (s : State) (x : list Goroutine) : State :=
  mkState (inst s) (data s) x (collector s) (run_cleaners s)
          (run_total s) (calls s) (trace s) (panicked s).
Definition set_collector (s : State) (x : Collector) : State :=
  mkState (inst s) (data s) (goroutines s) x (run_cleaners s)
          (run_total s) (calls s) (trace s) (panicked s).
Definition set_calls (s : State) (x : list Call) : State :=
  mkState (inst s) (data s) (goroutines s) (collector s) (run_cleaners s)
          (run_total s) x (trace s) (panicked s).
Definition log (s : State) (ev : Event) : State :=
  mkState (inst s) (data s) (goroutines s) (collector s) (run_cleaners s)
          (run_total s) (calls s) (trace s ++ [ev]) (panicked s).
(** An unrecovered panic takes the whole process down. *)
Definition panic (s : State) : State :=
  mkState (inst s) (data s) (goroutines s) (collector s) (run_cleaners s)
          (run_total s) (calls s) (trace s ++ [EvPanic]) true.

Definition set_abort (s : State) (c : chan) : State :=
  set_inst s (mkInstance c (done (inst s)) (err (inst s))).
Definition set_done (s : State) (c : chan) : State :=
  set_inst s (mkInstance (abort (inst s)) c (err (inst s))).
Definition set_err (s : State) (e : option error) : State :=
  set_inst s (mkInstance (abort (inst s)) (done (inst s)) e).

(** ** Start *)

(** The inner loop of [Start]: [for j := 0; j < wg.counts[i]; j++] runs
    [total++; go w(i)] once per replica. *)
Fixpoint launch (n : nat) (i : nat) (w : Worker) (st : Z * list Goroutine)
  : Z * list Goroutine :=
  match n with
  | O => st
  | S n' => launch n' i w (wrap64 (fst st + 1), snd st ++ [Running i w])
  end.

(** The outer loop, [for i := range wg.workers], at index [i] with [ws]
    the workers still to go.  [wg.counts[i]] out of range panics. *)
Fixpoint spawn (cs : list Z) (ws : list Worker) (i : nat) (st : Z * list Goroutine)
  : option (Z * list Goroutine) :=
  match ws with
  | [] => Some st
  | w :: ws' =>
      match cs !! i with
      | None => None
      | Some c => spawn cs ws' (S i) (launch (Z.to_nat c) i w st)
      end
  end.

(** The head of the [for _, c := range cleaners] loop. *)
Definition range (cs : list (Cleaner Data)) (k : nat) : Collector :=
  if (k <? length cs)%nat then CClean k else CFinalSelect.

(** The head of the [for i := 0; i < total; i++] loop. *)
Definition loop (cs : list (Cleaner Data)) (total i : Z) : Collector :=
  if i <? total then CRecv i else range cs 0.

(** [Group.Start]: the state in which every replica and the collector have
    just been launched.  [None] when [Start] itself panics. *)
Definition Start (wg : Group) (d : Data) : option State :=
  match spawn (counts wg) (workers wg) 0 (0, []) with
  | None => None
  | Some (total, gs) =>
      Some {| inst := mkInstance Open Open None;
              data := d;
              goroutines := gs;
              collector := loop (cleaners wg) total 0;
              run_cleaners := cleaners wg;
              run_total := total;
              calls := [];
              trace := [];
              panicked := false |}
  end.

(** ** Steps *)

(** What the Go scheduler can do next. *)
Inductive Action : Type :=
| StepWorker (r : nat) (b : bool)  (* replica [r] does its next operation *)
| Receive (r : nat)                (* [rtn]: replica [r] sends, the collector receives *)
| StepCollector                    (* the collector does its next operation *)
| Invoke (m : Method)              (* some goroutine calls a method of the Instance *)
| StepCall (j : nat).              (* the [j]-th such call does its next operation *)

(** The closure [w] of [Start], [rtn <- wg.workers[i](in.abort, data)],
    up to the point where the worker has returned and the send blocks. *)
Definition step_worker (r : nat) (b : bool) (s : State) : option State :=
  match goroutines s !! r with
  | Some (Running i w) =>
      match w with
      | Return e =>
          Some (log (set_goroutines s (<[r := Sending i e]> (goroutines s)))
                    (EvReturn r e))
      | Poll wa wr =>
          let w' := if ready (abort (inst s)) then wa else wr in
          Some (set_goroutines s (<[r := Running i w']> (goroutines s)))
      | Await k =>
          if ready (abort (inst s))
          then Some (set_goroutines s (<[r := Running i k]> (goroutines s)))
          else None
      | Choice wl wr =>
          let w' := if b then wl else wr in
          Some (set_goroutines s (<[r := Running i w']> (goroutines s)))
      end
  | _ => None
  end.

(** The rendezvous on [rtn]: replica [r] completes its send, [run]
    completes [err := <-rtn] and tests [err != nil]. *)
Definition step_receive (r : nat) (s : State) : option State :=
  match collector s, goroutines s !! r with
  | CRecv i, Some (Sending k e) =>
      let next :=
        match e with
        | Some e' => CSetErr i e'
        | None => loop (run_cleaners s) (run_total s) (i + 1)
        end in
      Some (log (set_collector (set_goroutines s (<[r := Exited k]> (goroutines s)))
                               next)
                (EvRecv r e))
  | _, _ => None
  end.

(** [Instance.run], one operation at a time; the loop counter cannot
    overflow, being below [total]. *)
Definition run (s : State) : option State :=
  let again i := loop (run_cleaners s) (run_total s) (i + 1) in
  match collector s with
  | CRecv _ => None
  | CSetErr i e =>
      Some (log (set_collector (set_err s (Some e)) (CSelect i)) (EvSetErr e))
  | CSelect i =>
      if ready (abort (inst s))
      then Some (set_collector s (again i))
      else Some (set_collector s (CClose i))
  | CClose i =>
      match close (abort (inst s)) with
      | Some c => Some (log (set_collector (set_abort s c) (again i)) EvAbort)
      | None => Some (panic s)
      end
  | CClean k =>
      match run_cleaners s !! k with
      | Some c =>
          Some (log (set_collector (set_data s (c (data s)))
                                   (range (run_cleaners s) (S k)))
                    (EvClean k))
      | None => None
      end
  | CFinalSelect =>
      if ready (abort (inst s))
      then Some (log (set_collector s CFinalSet) (EvCheck true))
      else Some (log (set_collector s CCloseDone) (EvCheck false))
  | CFinalSet =>
      match err (inst s) with
      | None =>
          Some (log (set_collector (set_err s (Some NonErrorAbort)) CCloseDone)
                    EvSentinel)
      | Some _ => Some (set_collector s CCloseDone)
      end
  | CCloseDone =>
      match close (done (inst s)) with
      | Some c => Some (log (set_collector (set_done s c) CExit) EvDone)
      | None => Some (panic s)
      end
  | CExit => None
  end.

(** Call [j] moves on to [c]. *)
Definition goto (s : State) (j : nat) (c : Call) : State :=
  set_calls s (<[j := c]> (calls s)).

(** [Instance.Wait], from where call [j] stands: [<-in.done], then
    [return in.err]. *)
Definition Wait (j : nat) (c : Call) (s : State) : option State :=
  match c with
  | WaitRecv =>
      if ready (done (inst s)) then Some (goto s j WaitRead) else None
  | WaitRead => Some (goto s j (WaitReturned (err (inst s))))
  | _ => None
  end.

(** [Instance.Done]: one [select] on [in.done]. *)
Definition Done (j : nat) (c : Call) (s : State) : option State :=
  match c with
  | DoneSelect => Some (goto s j (DoneReturned (ready (done (inst s)))))
  | _ => None
  end.

(** [Instance.Abort]: the [select] on [in.abort], and in its [default]
    branch [close(in.abort)]. *)
Definition Abort (j : nat) (c : Call) (s : State) : option State :=
  match c with
  | AbortSelect =>
      if ready (abort (inst s)) then Some (goto s j AbortReturned)
      else Some (goto s j AbortClose)
  | AbortClose =>
      match close (abort (inst s)) with
      | Some ch => Some (set_abort (goto s j AbortReturned) ch)
      | None => Some (panic s)
      end
  | _ => None
  end.

Definition step_call (j : nat) (s : State) : option State :=
  match calls s !! j with
  | Some c =>
      match c with
      | WaitRecv | WaitRead | WaitReturned _ => Wait j c s
      | DoneSelect | DoneReturned _ => Done j c s
      | AbortSelect | AbortClose | AbortReturned => Abort j c s
      end
  | None => None
  end.

(** One atomic step; [None] when the step cannot be taken (the goroutine
    is blocked or gone, or the process has panicked). *)
Definition step (a : Action) (s : State) : option State :=
  if panicked s then None else
  match a with
  | StepWorker r b => step_worker r b s
  | Receive r => step_receive r s
  | StepCollector => run s
  | Invoke m => Some (log (set_calls s (calls s ++ [enter m])) (EvInvoke m))
  | StepCall j => step_call j s
  end.

(** A run: the schedule, step by step. *)
Fixpoint exec (sched : list Action) (s : State) : option State :=
  match sched with
  | [] => Some s
  | a :: rest =>
      match step a s with
      | Some s' => exec rest s'
      | None => None
      end
  end.

(** [Instance.Wait], as the caller sees it: the value the [j]-th call
    returned, if it is a [Wait] that has returned. *)
Definition Wait_result (s : State) (j : nat) : option (option error) :=
  match calls s !! j with
  | Some (WaitReturned v) => Some v
  | _ => None
  end.

(** [Group.Run]: [return wg.Start(data).Wait()].  The caller is in
    [Wait], as call number 0 of the fresh Instance. *)
Definition Run (wg : Group) (d : Data) : option State :=
  match Start wg d with
  | Some s => step (Invoke MWait) s
  | None => None
  end.

End WorkerGroup.

Arguments Group : clear implicits.
Arguments State : clear implicits.

(** ** Invariants of a run *)

(** The error slot along the collector's way: during the loop and the
    cleaners it holds the last failure received; after the check of
    [in.abort] it holds the final value. *)
Definition err_inv {Data} (s : State Data) : Prop :=
  let rs := received (trace s) in
  match collector s with
  | CSetErr _ e => last_failure rs = Some e /\ checked (trace s) = None
  | CRecv _ | CSelect _ | CClose _ | CClean _ | CFinalSelect =>
      err (inst s) = last_failure rs /\ checked (trace s) = None
  | CFinalSet =>
      err (inst s) = last_failure rs /\ checked (trace s) = Some true
  | CCloseDone | CExit =>
      exists b, checked (trace s) = Some b /\
                err (inst s) = final_err b (last_failure rs)
  end.

(** A [Wait] gets past [<-in.done] only once the channel is closed, and
    what it returns is the error slot. *)
Definition call_ok (i : Instance) (c : Call) : Prop :=
  match c with
  | WaitRead => done i = Closed
  | WaitReturned v => done i = Closed /\ v = err i
  | _ => True
  end.

(** [in.done] is closed by the collector's last step and by nothing else. *)
Definition done_inv {Data} (s : State Data) : Prop :=
  (done (inst s) = Closed <-> collector s = CExit) /\
  (EvDone ∈ trace s <-> collector s = CExit) /\
  Forall (call_ok (inst s)) (calls s).

(** [in.abort] is closed only by a call of [Abort] or by the collector
    after a failure.  A call of [Abort] is in the trace from the moment it
    was made. *)
Definition is_abort_call (c : Call) : bool :=
  match c with AbortSelect | AbortClose | AbortReturned => true | _ => false end.

Definition abort_inv {Data} (s : State Data) : Prop :=
  let failed := last_failure (received (trace s)) <> None in
  match collector s with
  | CSetErr _ _ | CSelect _ | CClose _ => failed
  | _ => True
  end /\
  Forall (fun c => is_abort_call c = true -> EvInvoke MAbort ∈ trace s) (calls s) /\
  (collector s <> CExit -> abort (inst s) = Closed ->
   EvInvoke MAbort ∈ trace s \/ failed) /\
  (checked (trace s) = Some true ->
   EvInvoke MAbort ∈ before_done (trace s) \/ failed).


(** The loop counter of the collector counts the replicas that are gone. *)
Definition is_exited (g : Goroutine) : bool :=
  match g with Exited _ => true | _ => false end.

Fixpoint exited (gs : list Goroutine) : nat :=
  match gs with
  | [] => 0
  | g :: gs' => (if is_exited g then 1 else 0) + exited gs'
  end.

Definition count_inv {Data} (s : State Data) : Prop :=
  let n := Z.of_nat (length (goroutines s)) in
  let x := Z.of_nat (exited (goroutines s)) in
  run_total s = n /\
  match collector s with
  | CRecv i => 0 <= i < n /\ x = i
  | CSetErr i _ | CSelect i | CClose i => 0 <= i < n /\ x = i + 1
  | _ => x = n
  end.

(** A replica that is sending has returned; one that is gone has returned
    and the collector has received its result. *)
Definition has_returned (tr : list Event) (r : nat) (g : Goroutine) : Prop :=
  match g with
  | Running _ _ => True
  | Sending _ e => EvReturn r e ∈ tr
  | Exited _ => exists e, EvReturn r e ∈ tr /\ EvRecv r e ∈ tr
  end.

Definition returned_inv {Data} (s : State Data) : Prop :=
  forall r g, goroutines s !! r = Some g -> has_returned (trace s) r g.

(** What the collector receives, a worker has returned. *)
Definition recv_inv {Data} (s : State Data) : Prop :=
  forall r e, EvRecv r e ∈ trace s -> EvReturn r e ∈ trace s.

(** How many cleaners the collector has called. *)
Definition cleaners_called {Data} (s : State Data) : nat :=
  match collector s with
  | CRecv _ | CSetErr _ _ | CSelect _ | CClose _ => 0
  | CClean k => k
  | _ => length (run_cleaners s)
  end.

(** Calling cleaners one after the other on [data]. *)
Definition run_all {Data} (cs : list (Cleaner Data)) (d : Data) : Data :=
  fold_left (fun d c => c d) cs d.

Definition clean_inv {Data} (d0 : Data) (s : State Data) : Prop :=
  let k := cleaners_called s in
  cleaned (trace s) = seq 0 k /\
  data s = run_all (take k (run_cleaners s)) d0 /\
  match collector s with
  | CClean k => (k < length (run_cleaners s))%nat
  | _ => True
  end.

(** What held when an event of the collector happened: [pre] is the trace
    up to it, [n] the number of replicas, [m] the number of cleaners. *)
Definition at_event (n m : nat) (pre : list Event) (ev : Event) : Prop :=
  (collector_event ev = true -> EvDone ∉ pre) /\
  match ev with
  | EvClean k =>
      cleaned pre = seq 0 k /\
      forall r, (r < n)%nat -> exists e, EvReturn r e ∈ pre /\ EvRecv r e ∈ pre
  | EvDone => cleaned pre = seq 0 m
  | _ => True
  end.

Definition hist_inv {Data} (s : State Data) : Prop :=
  forall pre ev post,
    trace s = pre ++ ev :: post ->
    at_event (length (goroutines s)) (length (run_cleaners s)) pre ev.


(** A Group as the exported API builds it: one count per worker. *)
Definition well_formed {Data} (wg : Group Data) : Prop :=
  length (counts wg) = length (workers wg).

(** The worker a replica was launched for, as an index into [wg.workers]. *)
Definition worker_index (g : Goroutine) : nat :=
  match g with Running i _ | Sending i _ | Exited i => i end.

(** Every invariant of a run at once; [d0] is the [data] given to [Start]. *)
Definition run_inv {Data} (d0 : Data) (s : State Data) : Prop :=
  err_inv s /\ done_inv s /\ abort_inv s /\ returned_inv s /\ clean_inv d0 s /\
  recv_inv s.

(** The invariants that need [total] to be the number of replicas. *)
Definition full_inv {Data} (d0 : Data) (s : State Data) : Prop :=
  run_inv d0 s /\ count_inv s /\ hist_inv s.


(** [s] is a state of some run that starts in [s0]. *)
Definition reachable {Data} (s0 s : State Data) : Prop :=
  exists sched, exec sched s0 = Some s.

(** A run of a Group from [Start] on, under a schedule. *)
Definition execution {Data} (wg : Group Data) (d : Data) (sched : list Action)
  : option (State Data) :=
  Start wg d ≫= exec sched.

(** [Run] in the words of its documentation: [Start], then [Wait] on the
    Instance it returned. *)
Definition Start_then_Wait {Data} (wg : Group Data) (d : Data)
  : option (State Data) :=
  execution wg d [Invoke MWait].


(** The results the workers returned, in the order they returned. *)
Definition return_of (ev : Event) : option (option error) :=
  match ev with EvReturn _ e => Some e | _ => None end.
Definition returned (tr : list Event) : list (option error) := omap return_of tr.

(** ** Example Groups and schedules *)

Definition E1 : error := WorkerError 1.
Definition E2 : error := WorkerError 2.

(** Two workers that fail, and a cleaner that leaves a mark in [data]. *)
Definition two_failures : Group (list nat) :=
  AddCleaner (fun d => d ++ [7%nat])
    (Add 4 1 (Return (Some E2)) (Add 4 1 (Return (Some E1)) empty)).

(** [E1] reaches the collector first, [E2] second; then the caller waits. *)
Definition E1_then_E2 : list Action :=
  [StepWorker 0 true; StepWorker 1 true;
   Receive 0; StepCollector; StepCollector; StepCollector;
   Receive 1; StepCollector; StepCollector;
   StepCollector; StepCollector; StepCollector; StepCollector;
   Invoke MWait; StepCall 0; StepCall 0].

(** The same arrivals when the caller is in [Run]: its [Wait] is call 0
    from the start. *)
Definition E1_then_E2_in_Run : list Action :=
  [StepWorker 0 true; StepWorker 1 true;
   Receive 0; StepCollector; StepCollector; StepCollector;
   Receive 1; StepCollector; StepCollector;
   StepCollector; StepCollector; StepCollector; StepCollector;
   StepCall 0; StepCall 0].

(** A worker that hands on the sentinel, as one that runs a nested Group
    and returns what its [Run] returned would. *)
Definition relays_sentinel : Group unit :=
  Add 4 1 (Return (Some NonErrorAbort)) empty.

Definition fail_then_wait : list Action :=
  [StepWorker 0 true; Receive 0; StepCollector; StepCollector; StepCollector;
   StepCollector; StepCollector; StepCollector;
   Invoke MWait; StepCall 0; StepCall 0].

(** A worker that waits for the abort and then returns nil, as the
    documentation of [Worker] asks. *)
Definition obedient : Group unit := Add 4 1 (Await (Return None)) empty.

(** The client aborts; the worker returns nil; the caller waits. *)
Definition abort_then_wait : list Action :=
  [Invoke MAbort; StepCall 0; StepCall 0;
   StepWorker 0 true; StepWorker 0 true; Receive 0;
   StepCollector; StepCollector; StepCollector;
   Invoke MWait; StepCall 1; StepCall 1].

(** ** The claims as the specification words them, where the code differs *)

(** "Wait returns the sentinel exactly when, after all cleaners have
    finished, the Abort Signal is signaled and no worker has reported a
    non-nil error." *)
Definition sentinel_only_on_abort {Data} (s : State Data) (v : option error) : Prop :=
  v = Some NonErrorAbort <->
  checked (trace s) = Some true /\ failures (received (trace s)) = [].

(** "For all runs in which every worker returns nil, Wait returns nil." *)
Definition nil_workers_nil_result {Data} (s : State Data) (v : option error) : Prop :=
  failures (returned (trace s)) = [] -> v = None.


(** Two replicas of a worker that returns nil, and one cleaner. *)
Definition quiet : Group (list nat) :=
  AddCleaner (fun d => d ++ [7%nat]) (Add 4 2 (Return None) empty).

Definition quiet_run : list Action :=
  [StepWorker 0 true; StepWorker 1 true; Receive 1; Receive 0;
   StepCollector; StepCollector; StepCollector;
   Invoke MWait; StepCall 0; StepCall 0].

(** One worker fails, the other succeeds. *)
Definition fail_and_succeed : Group unit :=
  Add 4 1 (Return None) (Add 4 1 (Return (Some E1)) empty).

(** The failure has been recorded; the success is about to be received. *)
Definition failure_recorded : list Action :=
  [StepWorker 0 true; StepWorker 1 true;
   Receive 0; StepCollector; StepCollector; StepCollector].


(** ** Progress *)

Definition is_running (g : Goroutine) : bool :=
  match g with Running _ _ => true | _ => false end.

(** A state from which nothing stands in the collector's way: the process
    is alive, every worker has returned, [total] did not overflow, and no
    call of [Abort] has closed [in.abort] between the collector's [select]
    and its [close]. *)
Definition settled {Data} (s : State Data) : Prop :=
  panicked s = false /\
  Z.of_nat (length (goroutines s)) < 2 ^ 63 /\
  Forall (fun g => is_running g = false) (goroutines s) /\
  (forall i, collector s = CClose i -> abort (inst s) = Open).

(** A call of [Wait] made now can return [v]. *)
Definition Wait_can_return {Data} (s : State Data) (v : option error) : Prop :=
  exists sched s',
    exec sched s = Some s' /\ Wait_result s' (length (calls s)) = Some v.

(** The steps the collector still has to take. *)
Definition remaining {Data} (s : State Data) : nat :=
  let m := length (run_cleaners s) in
  let left i := (4 * Z.to_nat (run_total s - i - 1))%nat in
  match collector s with
  | CRecv i => left i + 4 + m + 3
  | CSetErr i _ => left i + 3 + m + 3
  | CSelect i => left i + 2 + m + 3
  | CClose i => left i + 1 + m + 3
  | CClean k => (m - k) + 3
  | CFinalSelect => 3
  | CFinalSet => 2
  | CCloseDone => 1
  | CExit => 0
  end%nat.


(** The steps of the collector, among those of a schedule. *)
Definition collector_action (a : Action) : bool :=
  match a with StepCollector | Receive _ => true | _ => false end.

(** No call of [Abort] and no failure so far: [in.abort] is open, every
    worker that has returned returned nil, and the check after the
    cleaners has not seen an abort. *)
Definition calm {Data} (s : State Data) : Prop :=
  abort (inst s) = Open /\
  failures (returned (trace s)) = [] /\
  checked (trace s) <> Some true.


(** One failing worker. *)
Definition failing : Group unit := Add 4 1 (Return (Some E1)) empty.

(** A call of [Abort] finds [in.abort] open; before it closes the channel
    the worker fails and the collector, which finds the channel open as
    well, closes it. *)
Definition abort_during_failure : list Action :=
  [Invoke MAbort; StepCall 0;
   StepWorker 0 true; Receive 0; StepCollector; StepCollector; StepCollector;
   StepCall 0].

(** Two calls of [Abort] from two goroutines, both past the [select]
    before either closes the channel. *)
Definition two_aborts : list Action :=
  [Invoke MAbort; Invoke MAbort; StepCall 0; StepCall 1; StepCall 0; StepCall 1].

(** ** Further invariants *)

(** Once [run] has gone on from a failure, [in.abort] is closed. *)
Definition failure_inv {Data} (s : State Data) : Prop :=
  match collector s with
  | CSetErr _ _ | CSelect _ | CClose _ => True
  | _ => failures (received (trace s)) <> [] -> abort (inst s) = Closed
  end.

(** As long as nobody calls [Abort], nothing can go wrong between a
    [select] and the [close] after it. *)
Definition no_abort_inv {Data} (s : State Data) : Prop :=
  EvInvoke MAbort ∉ trace s ->
  panicked s = false /\
  Forall (fun c => is_abort_call c = false) (calls s) /\
  (forall i, collector s = CClose i -> abort (inst s) = Open).

(** The replicas whose result [run] has received, in arrival order. *)
Definition receiver_of (ev : Event) : option nat :=
  match ev with EvRecv r _ => Some r | _ => None end.
Definition receivers (tr : list Event) : list nat := omap receiver_of tr.

(** [run] receives from a replica once, and then the replica is gone. *)
Definition once_inv {Data} (s : State Data) : Prop :=
  NoDup (receivers (trace s)) /\
  forall r, r ∈ receivers (trace s) <->
            exists i, goroutines s !! r = Some (Exited i).

(** ** Groups built through the API *)

(** What [Start] launches, worker by worker: [counts[i]] replicas of
    [workers[i]], from index [i] on. *)
Fixpoint replicas (cs : list Z) (ws : list Worker) (i : nat) : list Goroutine :=
  match cs, ws with
  | c :: cs', w :: ws' =>
      replicate (Z.to_nat c) (Running i w) ++ replicas cs' ws' (S i)
  | _, _ => []
  end.

(** The calls a client can make on a Group before it starts it. *)
Inductive GroupOp {Data : Type} : Type :=
| OpAdd (count : Z) (worker : Worker)
| OpAddCleaner (clean : Cleaner Data).
Arguments GroupOp : clear implicits.

Definition apply_op {Data} (NumCPU : Z) (wg : Group Data) (op : GroupOp Data)
  : Group Data :=
  match op with
  | OpAdd count worker => Add NumCPU count worker wg
  | OpAddCleaner clean => AddCleaner clean wg
  end.

(** [new(Group)] followed by the calls [ops], in order. *)
Definition build {Data} (NumCPU : Z) (ops : list (GroupOp Data)) : Group Data :=
  fold_left (apply_op NumCPU) ops empty.

(** The sum of the registered counts. *)
Definition sum_counts (cs : list Z) : Z := foldr Z.add 0 cs.

(** ** Calls on their own *)

(** What a call of [Done] returned, if call [j] is one that has. *)
Definition Done_result {Data} (s : State Data) (j : nat) : option bool :=
  match calls s !! j with
  | Some (DoneReturned b) => Some b
  | _ => None
  end.

(** A call of [Done], start to end, with nothing in between. *)
Definition Done_alone {Data} (s : State Data) : list Action :=
  [Invoke MDone; StepCall (length (calls s))].

(** A call of [Abort], start to end, with nothing in between: the
    [select], and the [close] if the channel was open. *)
Definition Abort_alone {Data} (s : State Data) : list Action :=
  if ready (abort (inst s))
  then [Invoke MAbort; StepCall (length (calls s))]
  else [Invoke MAbort; StepCall (length (calls s)); StepCall (length (calls s))].

(** A worker that fails at once, one that polls for the abort and
    returns nil either way, and a cleaner. *)
Definition mixed : Group (list nat) :=
  AddCleaner (fun d => d ++ [7%nat])
    (Add 4 1 (Poll (Return None) (Return None))
       (Add 4 1 (Return (Some E1)) empty)).

(** The failure is received and dealt with; the second worker has
    returned as well and is waiting to be received. *)
Definition failure_handled : list Action :=
  [StepWorker 0 true; StepWorker 1 true; StepWorker 1 true;
   Receive 0; StepCollector; StepCollector; StepCollector].

(** The whole run, with a poll of [Done] and a [Wait] at the end. *)
Definition mixed_run : list Action :=
  failure_handled ++
  [Receive 1; StepCollector; StepCollector; StepCollector; StepCollector;
   Invoke MDone; StepCall 0; Invoke MWait; StepCall 1; StepCall 1].


(** Three calls on a fresh Group. *)
Definition three_ops : list (GroupOp (list nat)) :=
  [OpAdd 2 (Return None); OpAddCleaner (fun d => d ++ [7%nat]);
   OpAdd 0 (Await (Return None))].


(** If the check after the cleaners found [in.abort] open, no worker had
    failed. *)
Definition check_inv {Data} (s : State Data) : Prop :=
  checked (trace s) = Some false -> failures (received (trace s)) = [].


(** * Properties *)

(** ** Tactics *)

(** Unfolding one step into its cases. *)
Ltac state_simpl :=
  unfold panic, log, set_abort, set_done, set_err, set_inst, set_data,
    set_goroutines, set_collector, set_calls, goto in *; simpl in *.

Ltac step_cases H :=
  unfold step in H;
  match type of H with
  | (if panicked ?s then _ else _) = _ =>
      let E := fresh "Halive" in
      destruct (panicked s) eqn:E; [discriminate H|]
  end;
  match type of H with
  | match ?a with _ => _ end = _ => destruct a
  end;
  unfold step_worker, step_receive, run, step_call, Wait, Done, Abort, goto in H;
  repeat match type of H with
    | context [match ?x with _ => _ end] => destruct x eqn:?
    | context [if ?x then _ else _] => destruct x eqn:?
    end;
  simplify_eq; state_simpl.

(** The collector's next position, case by case. *)
Ltac pc_cases :=
  unfold loop, range in *;
  repeat match goal with
    | |- context [if ?x then _ else _] => destruct x eqn:?
    end;
  repeat match goal with
    | H : collector ?s = _ |- _ => rewrite H in *
    end;
  try match goal with
    | |- context [collector ?s] => destruct (collector s) eqn:?
    end;
  simpl in *.

(** What [close] and a ready [select] case say about the channel. *)
Ltac chan_cases :=
  repeat match goal with
    | H : close ?c = _ |- _ => destruct c eqn:?; simpl in H; simplify_eq
    | H : ready ?c = _ |- _ => destruct c eqn:?; simpl in H; simplify_eq
    end.

Section Properties.

Context {Data : Type}.
Implicit Types (s : State Data) (wg : Group Data) (tr : list Event).

(** ** Runs *)

Lemma exec_app (l1 l2 : list Action) s :
  exec (l1 ++ l2) s = exec l1 s ≫= exec l2.
Proof.
  revert s. induction l1 as [|a l1 IH]; intros s; simpl; [done|].
  destruct (step a s); simpl; auto.
Qed.

(** Induction along a run, from its first state. *)
Lemma reachable_ind (P : State Data -> Prop) s0 :
  P s0 ->
  (forall s a s', reachable s0 s -> P s -> step a s = Some s' -> P s') ->
  forall s, reachable s0 s -> P s.
Proof.
  intros H0 Hstep s [l Hl]. revert s Hl.
  induction l as [|a l IH] using rev_ind; intros s Hl.
  - simpl in Hl. by simplify_eq.
  - rewrite exec_app in Hl. destruct (exec l s0) as [s1|] eqn:E1; [|done].
    simpl in Hl. destruct (step a s1) as [s2|] eqn:E2; [|done].
    simplify_eq. eapply Hstep; [by exists l | by apply IH | done].
Qed.

(** ** Traces grow at the end *)

Lemma received_snoc tr ev :
  received (tr ++ [ev]) =
  received tr ++ match recv_of ev with Some e => [e] | None => [] end.
Proof. unfold received. rewrite omap_app. simpl. by destruct (recv_of ev). Qed.

Lemma last_failure_snoc rs (r : option error) :
  last_failure (rs ++ [r]) =
  match r with Some e => Some e | None => last_failure rs end.
Proof.
  unfold last_failure, failures. rewrite omap_app. simpl.
  destruct r; simpl; [apply last_snoc | by rewrite app_nil_r].
Qed.

Lemma checked_snoc tr ev :
  checked (tr ++ [ev]) =
  match checked tr with Some b => Some b | None => check_of ev end.
Proof.
  unfold checked. rewrite omap_app. simpl.
  destruct (omap check_of tr); simpl; [by destruct (check_of ev) | done].
Qed.

Lemma cleaned_snoc tr ev :
  cleaned (tr ++ [ev]) =
  cleaned tr ++ match clean_of ev with Some k => [k] | None => [] end.
Proof. unfold cleaned. rewrite omap_app. simpl. by destruct (clean_of ev). Qed.

Lemma err_inv_step s a s' : err_inv s -> step a s = Some s' -> err_inv s'.
Proof.
  intros I H. step_cases H; unfold err_inv in *; state_simpl; pc_cases;
    rewrite ?received_snoc, ?checked_snoc, ?app_nil_r, ?last_failure_snoc in *;
    simpl in *; destruct_and?; try destruct I as (b' & ? & ?);
    rewrite ?last_failure_snoc;
    repeat match goal with H : checked _ = _ |- _ => rewrite H in * end;
    simpl; try (eexists; split; [reflexivity|]); try split; simpl;
    try (destruct (last_failure _); simpl in *; congruence); eauto.
Qed.

Lemma call_ok_mono (i i' : Instance) c :
  (done i = Closed -> done i' = Closed /\ err i' = err i) ->
  call_ok i c -> call_ok i' c.
Proof. intros Hi. destruct c; simpl; intuition congruence. Qed.

Lemma elem_of_snoc {A} (l : list A) (x y : A) : x ∈ l ++ [y] <-> x ∈ l \/ x = y.
Proof. by rewrite elem_of_app, list_elem_of_singleton. Qed.

Lemma done_inv_step s a s' : done_inv s -> step a s = Some s' -> done_inv s'.
Proof.
  intros (Hd & Ht & Hc) H. unfold done_inv.
  step_cases H; chan_cases;
    try match goal with
      | H : calls s !! _ = Some _ |- _ =>
          pose proof (Forall_lookup_1 _ _ _ _ Hc H) as Hj; simpl in Hj
      end;
    pc_cases; rewrite ?elem_of_snoc;
    (split; [|split]);
    try (apply Forall_insert); try (apply Forall_app_2);
    try (eapply Forall_impl; [exact Hc|]; intros ?; apply call_ok_mono; simpl);
    try match goal with |- Forall _ [enter ?m] => destruct m; repeat constructor end;
    simpl; try tauto; try (intuition congruence).
Qed.

(** ** The cause of an abort *)

Lemma before_done_id tr : EvDone ∉ tr -> before_done tr = tr.
Proof.
  induction tr as [|ev tr IH]; [done|]. rewrite not_elem_of_cons.
  intros [? ?]. simpl. rewrite IH by done. by destruct ev.
Qed.

Lemma before_done_mono tr ev x :
  x ∈ before_done tr -> x ∈ before_done (tr ++ [ev]).
Proof.
  induction tr as [|ev' tr IH]; simpl; [by rewrite elem_of_nil|].
  destruct ev'; rewrite ?elem_of_cons; try tauto; by rewrite elem_of_nil.
Qed.

(** Carrying the cause of an abort over one more event. *)
Ltac cause H :=
  destruct H as [H|H]; [left|right];
  [ first [ exact H
          | apply before_done_mono; exact H
          | rewrite elem_of_snoc; left; exact H ]
  | first [ exact H | done ] ].

Lemma abort_inv_step s a s' :
  err_inv s -> done_inv s -> abort_inv s -> step a s = Some s' -> abort_inv s'.
Proof.
  intros He (Hd & Ht & _) (Hf & Hc & Ha & Hk) H. unfold abort_inv.
  assert (Hb : collector s <> CExit -> before_done (trace s) = trace s).
  { intros. apply before_done_id. tauto. }
  unfold err_inv in He.
  step_cases H; chan_cases;
    try match goal with
      | H : calls s !! _ = Some _ |- _ =>
          pose proof (Forall_lookup_1 _ _ _ _ Hc H) as Hj; simpl in Hj
      end;
    pc_cases;
    try destruct He as (b' & ? & ?); destruct_and?;
    rewrite ?received_snoc, ?checked_snoc in *; simpl in *;
    rewrite ?app_nil_r, ?last_failure_snoc in *; simpl in *;
    repeat match goal with H : checked _ = _ |- _ => rewrite H in * end;
    split_and!;
    lazymatch goal with
    | |- True => done
    | |- _ <> None => try done
    | |- Forall _ (<[_:=_]> _) =>
        apply Forall_insert;
        [ eapply Forall_impl; [exact Hc|]; simpl; intros ? ? ?;
          rewrite ?elem_of_snoc; tauto
        | try done ]
    | |- Forall _ (_ ++ [enter ?m]) =>
        apply Forall_app_2;
        [ eapply Forall_impl; [exact Hc|]; simpl; intros ? ? ?;
          rewrite ?elem_of_snoc; tauto
        | destruct m; repeat constructor; simpl; try done;
          intros _; rewrite elem_of_snoc; tauto ]
    | |- Forall _ _ =>
        eapply Forall_impl; [exact Hc|]; simpl; intros ? ? ?;
        rewrite ?elem_of_snoc; tauto
    | |- _ -> _ -> _ \/ _ =>
        intros Hne Habort;
        first [ congruence
              | right; done
              | left; rewrite ?elem_of_snoc; tauto
              | pose proof (Ha ltac:(congruence)
                                ltac:(first [assumption|congruence|done]))
                  as Hcause;
                cause Hcause ]
    | |- _ -> _ \/ _ =>
        intros Hchk;
        first [ discriminate Hchk
              | specialize (Hk Hchk); cause Hk
              | pose proof (Ha ltac:(congruence) ltac:(done)) as Hcause;
                destruct Hcause as [Hcause|Hcause]; [left|by right];
                apply before_done_mono; rewrite Hb by congruence; exact Hcause ]
    end.
Qed.

(** ** What a step leaves alone *)

Lemma step_frame s a s' :
  step a s = Some s' ->
  run_total s' = run_total s /\ run_cleaners s' = run_cleaners s /\
  length (goroutines s') = length (goroutines s).
Proof.
  intros H. step_cases H; rewrite ?length_insert; done.
Qed.

Lemma exited_le gs : (exited gs <= length gs)%nat.
Proof. induction gs as [|[] gs IH]; simpl; lia. Qed.

Lemma exited_insert gs r g g' :
  gs !! r = Some g ->
  (exited (<[r:=g']> gs) + (if is_exited g then 1 else 0) =
   exited gs + (if is_exited g' then 1 else 0))%nat.
Proof.
  revert r. induction gs as [|g0 gs IH]; intros [|r] Hr; simplify_eq/=.
  - lia.
  - specialize (IH _ Hr). lia.
Qed.

Lemma exited_all gs r g :
  exited gs = length gs -> gs !! r = Some g -> is_exited g = true.
Proof.
  revert r. induction gs as [|g0 gs IH]; intros [|r] Hx Hr; simplify_eq/=.
  - pose proof (exited_le gs). destruct (is_exited g); [done|lia].
  - pose proof (exited_le gs). apply (IH r); [|done].
    destruct (is_exited g0); lia.
Qed.

Lemma count_inv_step s a s' : count_inv s -> step a s = Some s' -> count_inv s'.
Proof.
  intros (Ht & Hc) H. unfold count_inv.
  step_cases H;
    try match goal with
      | H : goroutines s !! _ = Some _ |- _ =>
          pose proof (fun g' => exited_insert _ _ _ g' H) as Hx; simpl in Hx
      end;
    pc_cases; rewrite ?length_insert;
    try match goal with
      | |- context [exited (<[?r:=?g]> _)] => specialize (Hx g); simpl in Hx
      end;
    repeat split; try done; try lia.
Qed.


Lemma has_returned_mono tr ev r g :
  has_returned tr r g -> has_returned (tr ++ [ev]) r g.
Proof.
  destruct g; simpl; [done| |].
  - rewrite elem_of_snoc. tauto.
  - intros (e & ? & ?). exists e. rewrite !elem_of_snoc. tauto.
Qed.

Lemma returned_inv_step s a s' :
  returned_inv s -> step a s = Some s' -> returned_inv s'.
Proof.
  intros Hr H r' g' Hg'. unfold returned_inv in Hr.
  step_cases H;
    try (apply list_lookup_insert_Some in Hg' as [(-> & <- & ?)|[? Hg']]);
    first [ apply Hr in Hg'; try apply has_returned_mono; exact Hg'
          | simpl; rewrite ?elem_of_snoc; tauto
          | idtac ].
  all: match goal with
       | H : goroutines _ !! _ = Some (Sending _ ?e) |- _ =>
           apply Hr in H; simpl in H; exists e; rewrite !elem_of_snoc; tauto
       end.
Qed.

Lemma recv_inv_step s a s' :
  returned_inv s -> recv_inv s -> step a s = Some s' -> recv_inv s'.
Proof.
  intros Hr Hv H r' e'. unfold recv_inv in Hv.
  step_cases H; rewrite ?elem_of_snoc; try (by apply Hv);
    try (intros [?%Hv|?]; by simplify_eq; auto).
  all: intros [?%Hv|?]; [by auto|]; simplify_eq; left;
    match goal with
    | H : goroutines _ !! _ = Some (Sending _ _) |- _ => by apply Hr in H
    end.
Qed.

Lemma run_all_snoc (cs : list (Cleaner Data)) c d :
  run_all (cs ++ [c]) d = c (run_all cs d).
Proof. unfold run_all. by rewrite fold_left_app. Qed.

Lemma clean_inv_step d0 s a s' :
  clean_inv d0 s -> step a s = Some s' -> clean_inv d0 s'.
Proof.
  intros (Hc & Hd & Hk) H. unfold clean_inv, cleaners_called in *.
  step_cases H; pc_cases; rewrite ?cleaned_snoc, ?app_nil_r; simpl;
    rewrite ?Nat.ltb_lt, ?Nat.ltb_ge in *;
    try (split_and!; try done; try lia; fail).
  1-3: destruct (run_cleaners s); simpl in *; [done|lia].
  all: match goal with
       | H : run_cleaners _ !! ?k = Some _ |- _ =>
           pose proof (take_S_r _ _ _ H) as Htake
       end.
  - change (0%nat :: seq 1 k) with (seq 0 (S k)).
    rewrite seq_S, Hc. simpl. rewrite Htake, run_all_snoc, Hd. done.
  - assert (length (run_cleaners s) = S k) as Hlen by lia.
    rewrite Hlen, seq_S, Hc. simpl. rewrite Htake, run_all_snoc, Hd. done.
Qed.


(** A property of every event of a trace, given what came before it,
    extends to one more event. *)
Lemma hist_snoc (Q : list Event -> Event -> Prop) tr ev0 :
  (forall pre ev post, tr = pre ++ ev :: post -> Q pre ev) ->
  Q tr ev0 ->
  forall pre ev post, tr ++ [ev0] = pre ++ ev :: post -> Q pre ev.
Proof.
  intros Hall H0 pre ev post Heq.
  destruct post as [|x post _] using rev_ind.
  - apply app_inj_tail in Heq as [-> ->]. done.
  - change (pre ++ ev :: post ++ [x]) with (pre ++ (ev :: post) ++ [x]) in Heq.
    rewrite app_assoc in Heq. apply app_inj_tail in Heq as [-> _].
    by eapply Hall.
Qed.

Lemma all_returned s r :
  count_inv s -> returned_inv s ->
  Z.of_nat (exited (goroutines s)) = Z.of_nat (length (goroutines s)) ->
  (r < length (goroutines s))%nat ->
  exists e, EvReturn r e ∈ trace s /\ EvRecv r e ∈ trace s.
Proof.
  intros _ Hr Hx Hlt.
  destruct (lookup_lt_is_Some_2 _ _ Hlt) as [g Hg].
  assert (is_exited g = true) by (apply (exited_all (goroutines s) r g); [lia|done]).
  apply Hr in Hg. by destruct g.
Qed.

Lemma hist_inv_step d0 s a s' :
  done_inv s -> count_inv s -> returned_inv s -> clean_inv d0 s ->
  hist_inv s -> step a s = Some s' -> hist_inv s'.
Proof.
  intros (_ & Ht & _) Hn Hr (Hc & _ & _) Hh H.
  pose proof (all_returned s) as Hall.
  destruct Hn as [Htot Hn]. specialize (fun r => Hall r (conj Htot Hn) Hr).
  unfold hist_inv, cleaners_called in *.
  step_cases H; rewrite ?length_insert; try exact Hh;
    (apply hist_snoc; [exact Hh|]); split; simpl; try done;
    rewrite ?Heqc in *; try (rewrite Ht; congruence); auto.
Qed.


(** ** Start *)

Lemma wrap64_id z : - 2 ^ 63 <= z < 2 ^ 63 -> wrap64 z = z.
Proof. intros. unfold wrap64. rewrite Z.mod_small; lia. Qed.

Lemma wrap64_succ z : wrap64 (wrap64 z + 1) = wrap64 (z + 1).
Proof.
  unfold wrap64. f_equal.
  replace ((z + 2 ^ 63) mod 2 ^ 64 - 2 ^ 63 + 1 + 2 ^ 63)
    with ((z + 2 ^ 63) mod 2 ^ 64 + 1) by lia.
  rewrite Zplus_mod_idemp_l. f_equal. lia.
Qed.

Lemma launch_spec n i w t gs :
  launch n i w (t, gs) =
  (Nat.iter n (fun t => wrap64 (t + 1)) t, gs ++ replicate n (Running i w)).
Proof.
  revert t gs. induction n as [|n IH]; intros t gs; simpl.
  - by rewrite app_nil_r.
  - rewrite IH. f_equal.
    + clear. induction n as [|n IH]; simpl; [done|]. by rewrite IH.
    + by rewrite <- app_assoc.
Qed.

Lemma launch_total n i w t gs :
  t = wrap64 (Z.of_nat (length gs)) ->
  fst (launch n i w (t, gs)) =
  wrap64 (Z.of_nat (length (snd (launch n i w (t, gs))))).
Proof.
  revert t gs. induction n as [|n IH]; intros t gs Ht; simpl; [done|].
  apply IH. rewrite Ht, wrap64_succ, length_app. simpl. f_equal. lia.
Qed.

Lemma spawn_app cs ws1 ws2 i st :
  spawn cs (ws1 ++ ws2) i st =
  spawn cs ws1 i st ≫= spawn cs ws2 (i + length ws1)%nat.
Proof.
  revert i st. induction ws1 as [|w ws1 IH]; intros i st; simpl.
  - by rewrite Nat.add_0_r.
  - destruct (cs !! i); simpl; [|done].
    rewrite IH. by replace (S i + length ws1)%nat with (i + S (length ws1))%nat by lia.
Qed.

(** [Start] does not panic on the Groups the API builds, and the counts
    registered after the last worker do not matter to it. *)
Lemma spawn_total cs ws i st :
  (i + length ws <= length cs)%nat -> is_Some (spawn cs ws i st).
Proof.
  revert i st. induction ws as [|w ws IH]; intros i st Hlen; simpl in *; [done|].
  destruct (lookup_lt_is_Some_2 cs i ltac:(lia)) as [c ->]. apply IH. lia.
Qed.

Lemma spawn_more cs cs' ws i st :
  (i + length ws <= length cs)%nat ->
  spawn (cs ++ cs') ws i st = spawn cs ws i st.
Proof.
  revert i st. induction ws as [|w ws IH]; intros i st Hlen; simpl in *; [done|].
  rewrite lookup_app_l by lia.
  destruct (cs !! i); [|done]. apply IH. lia.
Qed.

Lemma spawn_inv cs ws i t gs t' gs' :
  spawn cs ws i (t, gs) = Some (t', gs') ->
  (t = wrap64 (Z.of_nat (length gs)) -> t' = wrap64 (Z.of_nat (length gs'))) /\
  exists new, gs' = gs ++ new /\
    Forall (fun g => exists j w, g = Running j w /\ (i <= j < i + length ws)%nat) new.
Proof.
  revert i t gs. induction ws as [|w ws IH]; intros i t gs H; simpl in *.
  - simplify_eq. split; [done|]. exists []. by rewrite app_nil_r.
  - destruct (cs !! i) as [c|]; [|done].
    pose proof (launch_total (Z.to_nat c) i w t gs) as Ht.
    rewrite launch_spec in H, Ht. simpl in Ht.
    apply IH in H as (Ht' & new & -> & Hnew). split; [by auto|].
    exists (replicate (Z.to_nat c) (Running i w) ++ new).
    split; [by rewrite app_assoc|]. apply Forall_app_2.
    + apply Forall_replicate. exists i, w. split; [done|lia].
    + eapply Forall_impl; [exact Hnew|]. intros g (j & w' & -> & ?).
      exists j, w'. split; [done|lia].
Qed.

Lemma Start_total wg d : well_formed wg -> is_Some (Start wg d).
Proof.
  intros Hwf. unfold Start.
  destruct (spawn_total (counts wg) (workers wg) 0 (0, [])) as [[t gs] ->];
    [unfold well_formed in Hwf; lia | done].
Qed.

Lemma empty_well_formed : well_formed (@empty Data).
Proof. done. Qed.

Lemma Add_well_formed ncpu count w wg :
  well_formed wg -> well_formed (Add ncpu count w wg).
Proof. unfold well_formed. simpl. rewrite !length_app. simpl. lia. Qed.

Lemma AddCleaner_well_formed c wg :
  well_formed wg -> well_formed (AddCleaner c wg).
Proof. done. Qed.


Lemma exited_running gs :
  Forall (fun g => exists j w, g = Running j w) gs -> exited gs = 0%nat.
Proof. induction 1 as [|g gs (j & w & ->) _ IH]; simpl; [done|lia]. Qed.

Lemma Start_shape wg d s0 :
  Start wg d = Some s0 ->
  inst s0 = mkInstance Open Open None /\ data s0 = d /\ calls s0 = [] /\
  trace s0 = [] /\ panicked s0 = false /\ run_cleaners s0 = cleaners wg /\
  collector s0 = loop (cleaners wg) (run_total s0) 0 /\
  run_total s0 = wrap64 (Z.of_nat (length (goroutines s0))) /\
  Forall (fun g => exists j w, g = Running j w /\ (j < length (workers wg))%nat)
         (goroutines s0).
Proof.
  unfold Start. intros H.
  destruct (spawn _ _ _ _) as [[t gs]|] eqn:Hs; simplify_eq. simpl.
  apply spawn_inv in Hs as (Ht & new & -> & Hnew). split_and!; try done.
  - by apply Ht.
  - eapply Forall_impl; [exact Hnew|]. intros g (j & w & -> & ?).
    exists j, w. split; [done|lia].
Qed.

Lemma Start_run_inv wg d s0 : Start wg d = Some s0 -> run_inv d s0.
Proof.
  intros H. apply Start_shape in H
    as (Hi & Hd & Hc & Ht & Hp & Hcs & Hpc & Htot & Hgs).
  unfold run_inv, err_inv, done_inv, abort_inv, returned_inv, clean_inv,
    recv_inv, cleaners_called.
  rewrite Hi, Hc, Ht, Hpc, Hcs, Hd. unfold loop, range. simpl.
  assert (Hr : forall r g, goroutines s0 !! r = Some g -> has_returned [] r g).
  { intros r g Hg. eapply Forall_lookup_1 in Hgs as (j & w & -> & _); done. }
  destruct (0 <? run_total s0); [|destruct (0 <? length (cleaners wg))%nat eqn:Hlen];
    simpl; rewrite ?elem_of_nil; split_and!; try done;
    try (constructor); try lia;
    try (by intros ? ? ?%elem_of_nil).
  all: rewrite ?Nat.ltb_lt, ?Nat.ltb_ge in Hlen; try lia.
  all: destruct (cleaners wg); simpl in *; [done|lia].
Qed.

Lemma Start_full_inv wg d s0 :
  Start wg d = Some s0 ->
  Z.of_nat (length (goroutines s0)) < 2 ^ 63 ->
  full_inv d s0.
Proof.
  intros H Hlt. split; [by eapply Start_run_inv|].
  apply Start_shape in H as (Hi & Hd & Hc & Ht & Hp & Hcs & Hpc & Htot & Hgs).
  rewrite wrap64_id in Htot by lia.
  assert (Hx : exited (goroutines s0) = 0%nat).
  { apply exited_running. eapply Forall_impl; [exact Hgs|]. intros g (j & w & -> & _). eauto. }
  split.
  - unfold count_inv. rewrite Hpc, Hx, Htot. unfold loop, range. split; [done|].
    destruct (0 <? _) eqn:?; [lia|].
    destruct (0 <? length _)%nat; simpl; lia.
  - intros pre ev post Heq. rewrite Ht in Heq. by destruct pre.
Qed.

Lemma run_inv_step d0 s a s' :
  run_inv d0 s -> step a s = Some s' -> run_inv d0 s'.
Proof.
  intros (He & Hd & Ha & Hr & Hc & Hv) H. unfold run_inv.
  split_and!;
    eauto using err_inv_step, done_inv_step, abort_inv_step, returned_inv_step,
      clean_inv_step, recv_inv_step.
Qed.

Lemma full_inv_step d0 s a s' :
  full_inv d0 s -> step a s = Some s' -> full_inv d0 s'.
Proof.
  intros (Hr & Hc & Hh) H. pose proof Hr as (He & Hd & Ha & Hret & Hcl & _).
  unfold full_inv.
  eauto 10 using run_inv_step, count_inv_step, hist_inv_step.
Qed.

Lemma run_inv_reachable wg d s0 s :
  Start wg d = Some s0 -> reachable s0 s -> run_inv d s.
Proof.
  intros H0 Hr. revert s Hr. apply reachable_ind;
    eauto using Start_run_inv, run_inv_step.
Qed.

Lemma full_inv_reachable wg d s0 s :
  Start wg d = Some s0 ->
  Z.of_nat (length (goroutines s0)) < 2 ^ 63 ->
  reachable s0 s -> full_inv d s.
Proof.
  intros H0 Hlt Hr. revert s Hr. apply reachable_ind;
    eauto using Start_full_inv, full_inv_step.
Qed.


(** ** What Wait returns *)

Lemma execution_reachable wg d sched s :
  execution wg d sched = Some s ->
  exists s0, Start wg d = Some s0 /\ reachable s0 s.
Proof.
  unfold execution. destruct (Start wg d) as [s0|]; simpl; [|done].
  intros H. exists s0. split; [done|]. by exists sched.
Qed.

Lemma execution_run_inv wg d sched s :
  execution wg d sched = Some s -> run_inv d s.
Proof.
  intros (s0 & H0 & Hr)%execution_reachable. by eapply run_inv_reachable.
Qed.

Lemma reachable_frame s0 s :
  reachable s0 s ->
  run_total s = run_total s0 /\ run_cleaners s = run_cleaners s0 /\
  length (goroutines s) = length (goroutines s0).
Proof.
  intros Hr. revert s Hr. apply reachable_ind; [done|].
  intros s a s' _ (<- & <- & <-) H. by apply step_frame in H.
Qed.

Lemma execution_full_inv wg d sched s :
  execution wg d sched = Some s ->
  Z.of_nat (length (goroutines s)) < 2 ^ 63 ->
  full_inv d s.
Proof.
  intros (s0 & H0 & Hr)%execution_reachable Hlt.
  eapply full_inv_reachable; [done| |done].
  apply reachable_frame in Hr as (_ & _ & <-). done.
Qed.

Lemma execution_cleaners wg d sched s :
  execution wg d sched = Some s -> run_cleaners s = cleaners wg.
Proof.
  intros (s0 & H0 & Hr)%execution_reachable.
  apply reachable_frame in Hr as (_ & -> & _).
  by apply Start_shape in H0 as (_ & _ & _ & _ & _ & -> & _).
Qed.

(** A [Wait] that has returned did so after [in.done] was closed, with
    the value the collector left in the error slot. *)
Lemma Wait_result_inv d0 s j v :
  run_inv d0 s -> Wait_result s j = Some v ->
  collector s = CExit /\ v = err (inst s) /\
  exists b, checked (trace s) = Some b /\
            v = final_err b (last_failure (received (trace s))).
Proof.
  intros (He & (Hd & _ & Hc) & _) Hw. unfold Wait_result in Hw.
  destruct (calls s !! j) as [[]|] eqn:Hj; simplify_eq.
  pose proof (Forall_lookup_1 _ _ _ _ Hc Hj) as Hok. simpl in Hok.
  destruct Hok as [Hdone ->]. apply Hd in Hdone. unfold err_inv in He. rewrite Hdone in He.
  destruct He as (b & ? & ?). eauto.
Qed.

Lemma last_failure_None rs : last_failure rs = None <-> failures rs = [].
Proof. unfold last_failure. apply last_None. Qed.

Lemma last_failure_received tr e :
  last_failure (received tr) = Some e -> exists r, EvRecv r (Some e) ∈ tr.
Proof.
  unfold last_failure, failures, received. intros H.
  assert (He : e ∈ omap id (omap recv_of tr)).
  { apply last_Some in H as [l ->]. rewrite elem_of_snoc. by right. }
  apply list_elem_of_omap in He as (o & Ho & ?). simplify_eq/=.
  apply list_elem_of_omap in Ho as (ev & Hev & Hrecv).
  destruct ev; simplify_eq/=. eauto.
Qed.



Lemma elem_of_failures_received tr e :
  e ∈ failures (received tr) <-> exists r, EvRecv r (Some e) ∈ tr.
Proof.
  unfold failures, received. rewrite list_elem_of_omap. split.
  - intros (o & (ev & Hev & Ho)%list_elem_of_omap & ?).
    destruct ev; simplify_eq/=. eauto.
  - intros (r & Hr). exists (Some e). split; [|done].
    apply list_elem_of_omap. by exists (EvRecv r (Some e)).
Qed.

Lemma elem_of_failures_returned tr e :
  e ∈ failures (returned tr) <-> exists r, EvReturn r (Some e) ∈ tr.
Proof.
  unfold failures, returned. rewrite list_elem_of_omap. split.
  - intros (o & (ev & Hev & Ho)%list_elem_of_omap & ?).
    destruct ev; simplify_eq/=. eauto.
  - intros (r & Hr). exists (Some e). split; [|done].
    apply list_elem_of_omap. by exists (EvReturn r (Some e)).
Qed.

(** If no worker returned a failure, the collector received none. *)
Lemma no_failure_received s :
  recv_inv s -> failures (returned (trace s)) = [] ->
  failures (received (trace s)) = [].
Proof.
  intros Hv Hnil. apply elem_of_nil_inv. intros e He.
  apply elem_of_failures_received in He as [r Hr%Hv].
  assert (e ∈ failures (returned (trace s)))
    by (apply elem_of_failures_returned; eauto).
  rewrite Hnil in *. by eapply elem_of_nil.
Qed.


(** ** Progress of the collector *)

Lemma exists_sending gs :
  (exited gs < length gs)%nat ->
  Forall (fun g => is_running g = false) gs ->
  exists r i e, gs !! r = Some (Sending i e).
Proof.
  induction gs as [|g gs IH]; simpl; [lia|].
  intros Hlt Hall. apply Forall_cons in Hall as [Hg Hall].
  destruct g as [| i e | i]; simpl in *; [done| |].
  - by exists 0%nat, i, e.
  - destruct IH as (r & i' & e & Hr); [lia|done|]. by exists (S r), i', e.
Qed.

(** While the collector has not finished, it has a step to take, which
    brings it closer to the end and disturbs no call. *)
Lemma collector_progress d0 s :
  full_inv d0 s -> settled s -> collector s <> CExit ->
  exists a s',
    step a s = Some s' /\ settled s' /\ calls s' = calls s /\
    (remaining s' < remaining s)%nat /\ collector_action a = true.
Proof.
  intros ((He & (Hd & _) & _ & _ & (_ & _ & Hk) & _) & (Htot & Hn) & _)
         (Hp & Hlt & Hrun & Hcl) Hpc.
  unfold settled, remaining, step. rewrite Hp.
  destruct (collector s) eqn:Epc; try done.
  - (* [err := <-rtn] *)
    destruct Hn as [Hi Hx].
    destruct (exists_sending (goroutines s)) as (r & j & e & Hr);
      [clear -Hi Hx; lia|done|].
    exists (Receive r). unfold step_receive. rewrite Epc, Hr.
    eexists. split; [done|]. state_simpl. rewrite length_insert.
    split_and!; try done.
    + by apply Forall_insert.
    + destruct e; [done|]. unfold loop, range. repeat case_match; by simplify_eq.
    + destruct e; simpl; [lia|]. unfold loop, range.
      repeat case_match; simplify_eq; simpl;
        rewrite ?Z.ltb_lt, ?Z.ltb_ge, ?Nat.ltb_lt, ?Nat.ltb_ge in *; lia.
  - exists StepCollector. unfold run. rewrite Epc.
    eexists. split; [done|]. state_simpl. split_and!; try done. lia.
  - exists StepCollector. unfold run. rewrite Epc.
    destruct (ready (abort (inst s))) eqn:Er;
      (eexists; split; [done|]); state_simpl.
    + split_and!; try done.
      * unfold loop, range. repeat case_match; by simplify_eq.
      * destruct Hn. unfold loop, range. repeat case_match; simplify_eq; simpl;
        rewrite ?Z.ltb_lt, ?Z.ltb_ge, ?Nat.ltb_lt, ?Nat.ltb_ge in *; lia.
    + split_and!; try done; [|lia].
      intros ? _. by destruct (abort (inst s)).
  - exists StepCollector. unfold run. rewrite Epc.
    rewrite (Hcl i eq_refl). simpl.
    eexists. split; [done|]. state_simpl. split_and!; try done.
    + unfold loop, range. repeat case_match; by simplify_eq.
    + destruct Hn. unfold loop, range. repeat case_match; simplify_eq; simpl;
        rewrite ?Z.ltb_lt, ?Z.ltb_ge, ?Nat.ltb_lt, ?Nat.ltb_ge in *; lia.
  - exists StepCollector. unfold run. rewrite Epc.
    destruct (run_cleaners s !! k) as [c|] eqn:Hc;
      [|apply lookup_ge_None in Hc; lia].
    eexists. split; [done|]. state_simpl. split_and!; try done.
    + unfold range. repeat case_match; by simplify_eq.
    + unfold range. repeat case_match; simplify_eq; simpl;
        rewrite ?Z.ltb_lt, ?Z.ltb_ge, ?Nat.ltb_lt, ?Nat.ltb_ge in *; lia.
  - exists StepCollector. unfold run. rewrite Epc.
    destruct (ready (abort (inst s)));
      (eexists; split; [done|]); state_simpl; split_and!; try done; lia.
  - exists StepCollector. unfold run. rewrite Epc.
    destruct (err (inst s));
      (eexists; split; [done|]); state_simpl; split_and!; try done; lia.
  - exists StepCollector. unfold run. rewrite Epc.
    assert (done (inst s) = Open) as ->.
    { destruct (done (inst s)); [done|]. destruct Hd as [Hd _].
      specialize (Hd eq_refl). congruence. }
    simpl. eexists. split; [done|]. state_simpl. split_and!; try done. lia.
Qed.

Lemma collector_finishes d0 s :
  full_inv d0 s -> settled s ->
  exists sched s',
    exec sched s = Some s' /\ collector s' = CExit /\ settled s' /\
    calls s' = calls s /\ full_inv d0 s' /\
    Forall (fun a => collector_action a = true) sched.
Proof.
  remember (remaining s) as n eqn:Hn. revert s Hn.
  induction n as [n IH] using lt_wf_ind. intros s -> Hinv Hset.
  destruct (decide (collector s = CExit)) as [Hpc|Hpc].
  - by exists [], s.
  - destruct (collector_progress _ _ Hinv Hset Hpc)
      as (a & s1 & H1 & Hs1 & Hc1 & Hlt & Ha).
    destruct (IH _ Hlt s1 eq_refl) as (sched & s' & H' & ? & ? & Hc' & ? & ?);
      [by eapply full_inv_step|done|].
    exists (a :: sched), s'. simpl. rewrite H1. split_and!; try done.
    + congruence.
    + by constructor.
Qed.


(** Once [in.done] is closed, a call of [Wait] goes straight through. *)
Lemma Wait_after_done s :
  panicked s = false -> done (inst s) = Closed ->
  exists s',
    exec [Invoke MWait; StepCall (length (calls s)); StepCall (length (calls s))] s
      = Some s' /\
    Wait_result s' (length (calls s)) = Some (err (inst s)) /\
    inst s' = inst s.
Proof.
  intros Hp Hd. set (n := length (calls s)).
  set (s1 := log (set_calls s (calls s ++ [enter MWait])) (EvInvoke MWait)).
  set (s2 := set_calls s1 (<[n:=WaitRead]> (calls s1))).
  set (s3 := set_calls s2 (<[n:=WaitReturned (err (inst s))]> (calls s2))).
  assert (H1 : step (Invoke MWait) s = Some s1) by (unfold step; by rewrite Hp).
  assert (H2 : step (StepCall n) s1 = Some s2).
  { unfold step, step_call, Wait, Abort, goto. simpl. rewrite Hp.
    rewrite list_lookup_middle by done. by rewrite Hd. }
  assert (H3 : step (StepCall n) s2 = Some s3).
  { unfold step, step_call, Wait, Abort, goto. simpl. rewrite Hp.
    rewrite list_lookup_insert_eq by (rewrite length_app; simpl; lia). done. }
  exists s3. simpl. rewrite H1, H2, H3. split; [done|].
  unfold Wait_result. simpl.
  rewrite list_lookup_insert_eq
    by (rewrite length_insert, length_app; simpl; lia).
  done.
Qed.

(** When every worker has returned, a call of [Wait] can return. *)
Lemma settled_Wait_returns d0 s :
  full_inv d0 s -> settled s -> exists v, Wait_can_return s v.
Proof.
  intros Hinv Hset.
  destruct (collector_finishes _ _ Hinv Hset)
    as (sched & s1 & H1 & Hpc & (Hp & _) & Hc & ((_ & (Hd & _) & _) & _) & _).
  apply Hd in Hpc.
  destruct (Wait_after_done s1 Hp Hpc) as (s2 & H2 & Hw & _).
  exists (err (inst s1)), (sched ++ [Invoke MWait; StepCall (length (calls s1));
                                      StepCall (length (calls s1))]), s2.
  rewrite exec_app, H1. simpl. split; [done|]. by rewrite <- Hc.
Qed.


(** ** Runs, continued *)

Lemma step_trace s a s' :
  step a s = Some s' -> exists ext, trace s' = trace s ++ ext.
Proof.
  intros H. step_cases H;
    first [ by exists []; rewrite app_nil_r | by eexists [_] ].
Qed.

Lemma exec_trace sched s s' :
  exec sched s = Some s' -> exists ext, trace s' = trace s ++ ext.
Proof.
  revert s. induction sched as [|a sched IH]; intros s H; simpl in H.
  - simplify_eq. exists []. by rewrite app_nil_r.
  - destruct (step a s) as [s1|] eqn:H1; [|done].
    apply step_trace in H1 as [e1 H1]. apply IH in H as [e2 H].
    exists (e1 ++ e2). by rewrite H, H1, app_assoc.
Qed.

Lemma failures_received_app tr ext :
  failures (received (tr ++ ext)) =
  failures (received tr) ++ failures (received ext).
Proof. unfold failures, received. by rewrite !omap_app. Qed.

Lemma execution_app wg d sched sched' s s' :
  execution wg d sched = Some s -> exec sched' s = Some s' ->
  execution wg d (sched ++ sched') = Some s'.
Proof.
  unfold execution. destruct (Start wg d) as [s0|]; simpl; [|done].
  intros H H'. by rewrite exec_app, H.
Qed.

(** The collector, left alone with workers that all returned nil, keeps
    [in.abort] open. *)
Lemma calm_step d0 s a s' :
  run_inv d0 s -> calm s -> collector_action a = true ->
  step a s = Some s' -> calm s'.
Proof.
  intros (He & _ & (Hf & _) & _ & _ & Hv) (Ha & Hnil & Hchk) Hact H.
  pose proof (no_failure_received _ Hv Hnil) as Hrecv.
  apply last_failure_None in Hrecv.
  unfold calm, err_inv, returned in *.
  step_cases H; try done; rewrite ?omap_app, ?checked_snoc; simpl;
    rewrite ?app_nil_r; try done; destruct_and?;
    repeat match goal with H : checked _ = _ |- _ => rewrite H in * end;
    try done; try congruence.
  all: try (rewrite Ha in *; simpl in *; done).
  all: split_and!; try done; by destruct (checked (trace s)) as [[]|].
Qed.

Lemma calm_exec d0 sched s s' :
  run_inv d0 s -> calm s -> Forall (fun a => collector_action a = true) sched ->
  exec sched s = Some s' -> calm s'.
Proof.
  revert s. induction sched as [|a sched IH]; intros s Hinv Hc Hall H;
    simpl in H; [by simplify_eq|].
  apply Forall_cons in Hall as [Ha Hall].
  destruct (step a s) as [s1|] eqn:H1; [|done].
  apply (IH s1); [by eapply run_inv_step|by eapply calm_step|done|done].
Qed.


(** ** After Done *)

Lemma done_frozen d0 s a s' :
  run_inv d0 s -> done (inst s) = Closed -> step a s = Some s' ->
  done (inst s') = Closed /\ err (inst s') = err (inst s).
Proof.
  intros (_ & (Hd & _) & _) Hdone H. pose proof Hdone as Hpc. apply Hd in Hpc.
  step_cases H; try done; congruence.
Qed.

Lemma done_frozen_exec d0 sched s s' :
  run_inv d0 s -> done (inst s) = Closed -> exec sched s = Some s' ->
  done (inst s') = Closed /\ err (inst s') = err (inst s) /\ run_inv d0 s'.
Proof.
  revert s. induction sched as [|a sched IH]; intros s Hinv Hd H; simpl in H.
  - by simplify_eq.
  - destruct (step a s) as [s1|] eqn:H1; [|done].
    destruct (done_frozen _ _ _ _ Hinv Hd H1) as [Hd1 He1].
    destruct (IH s1) as (? & ? & ?); [by eapply run_inv_step|done|done|].
    split_and!; try done. congruence.
Qed.

(** A [Wait] that has returned, returned the last failure the collector
    received, when there was one. *)
Lemma Wait_result_failure d0 s j v :
  run_inv d0 s -> Wait_result s j = Some v ->
  failures (received (trace s)) <> [] ->
  v = last_failure (received (trace s)) /\ v <> None.
Proof.
  intros Hinv Hw Hsome.
  destruct (Wait_result_inv _ _ _ _ Hinv Hw) as (_ & _ & b & _ & ->).
  destruct (last_failure _) eqn:Hl; simpl; [done|].
  by apply last_failure_None in Hl.
Qed.

(** A call of [Abort] that starts when [in.abort] is closed changes
    nothing but its own record. *)
Lemma Abort_after_abort s :
  panicked s = false -> abort (inst s) = Closed ->
  exists s',
    exec [Invoke MAbort; StepCall (length (calls s))] s = Some s' /\
    inst s' = inst s /\ data s' = data s /\ goroutines s' = goroutines s /\
    collector s' = collector s /\ panicked s' = false /\
    calls s' = calls s ++ [AbortReturned].
Proof.
  intros Hp Ha. set (n := length (calls s)).
  set (s1 := log (set_calls s (calls s ++ [enter MAbort])) (EvInvoke MAbort)).
  set (s2 := set_calls s1 (<[n:=AbortReturned]> (calls s1))).
  assert (H1 : step (Invoke MAbort) s = Some s1) by (unfold step; by rewrite Hp).
  assert (H2 : step (StepCall n) s1 = Some s2).
  { unfold step, step_call, Wait, Abort, goto. simpl. rewrite Hp.
    rewrite list_lookup_middle by done. by rewrite Ha. }
  exists s2. simpl. rewrite H1, H2. split_and!; try done.
  simpl. unfold n. clear. induction (calls s); simpl; [done|]. by f_equal.
Qed.


(** ** The order of events *)




(** ** Adding a worker *)

Lemma Start_Add ncpu count w wg d s0 :
  well_formed wg -> Start wg d = Some s0 ->
  exists s0',
    Start (Add ncpu count w wg) d = Some s0' /\
    goroutines s0' =
    goroutines s0 ++
    replicate (Z.to_nat (if count <=? 0 then ncpu else count))
              (Running (length (workers wg)) w).
Proof.
  unfold well_formed, Start. simpl. intros Hwf H.
  rewrite spawn_app, spawn_more by lia.
  destruct (spawn (counts wg) (workers wg) 0 (0, [])) as [[t gs]|]; [|done].
  simplify_eq. simpl. rewrite list_lookup_middle by done.
  rewrite launch_spec. eexists. split; [done|]. done.
Qed.

(** ** A Group without workers *)

Lemma cleaners_exec n s k :
  panicked s = false ->
  (k + n = length (run_cleaners s))%nat ->
  collector s = range (run_cleaners s) k ->
  exists s',
    exec (replicate n StepCollector) s = Some s' /\
    collector s' = CFinalSelect /\
    trace s' = trace s ++ (EvClean <$> seq k n) /\
    data s' = run_all (drop k (run_cleaners s)) (data s) /\
    inst s' = inst s /\ calls s' = calls s /\ panicked s' = false /\
    goroutines s' = goroutines s /\ run_cleaners s' = run_cleaners s.
Proof.
  revert s k. induction n as [|n IH]; intros s k Hp Hlen Hpc.
  - exists s. unfold range in Hpc.
    assert ((k <? length (run_cleaners s))%nat = false) as Hk
      by (apply Nat.ltb_ge; lia).
    rewrite Hk in Hpc. rewrite drop_ge by lia. simpl.
    by rewrite app_nil_r.
  - unfold range in Hpc.
    assert ((k <? length (run_cleaners s))%nat = true) as Hk
      by (apply Nat.ltb_lt; lia).
    rewrite Hk in Hpc.
    destruct (run_cleaners s !! k) as [c|] eqn:Hc;
      [|apply lookup_ge_None in Hc; lia].
    set (s1 := log (set_collector (set_data s (c (data s)))
                                  (range (run_cleaners s) (S k))) (EvClean k)).
    assert (H1 : step StepCollector s = Some s1).
    { unfold step, run. by rewrite Hp, Hpc, Hc. }
    destruct (IH s1 (S k)) as (s' & H' & ? & Htr & Hd & ? & ? & ? & ? & ?);
      [done|simpl; lia|done|].
    exists s'. simpl. rewrite H1. split_and!; try done.
    + rewrite Htr. simpl. by rewrite <- app_assoc.
    + rewrite Hd. simpl. by rewrite (drop_S _ _ _ Hc).
Qed.

Lemma no_workers_no_failures s0 s :
  reachable s0 s -> goroutines s0 = [] -> received (trace s0) = [] ->
  goroutines s = [] /\ received (trace s) = [].
Proof.
  intros Hr Hg0 Ht0. revert s Hr. apply reachable_ind; [done|].
  intros s a s' _ [Hg Ht] H.
  step_cases H; rewrite ?received_snoc, ?Ht; simpl; try done;
    rewrite Hg in *; done.
Qed.


(** ** A failure orders an abort *)

Lemma failures_received_snoc tr ev :
  failures (received (tr ++ [ev])) =
  failures (received tr) ++
  match ev with EvRecv _ (Some e) => [e] | _ => [] end.
Proof.
  rewrite failures_received_app. f_equal. by destruct ev as [| ? []| | | | | | | |].
Qed.

Lemma failure_inv_step s a s' :
  failure_inv s -> step a s = Some s' -> failure_inv s'.
Proof.
  intros Hf H. unfold failure_inv in *.
  step_cases H; chan_cases; pc_cases;
    rewrite ?failures_received_snoc, ?app_nil_r; simpl; try done.
Qed.


(** ** Without a call of Abort *)

Lemma no_abort_inv_step s a s' :
  done_inv s -> no_abort_inv s -> step a s = Some s' -> no_abort_inv s'.
Proof.
  intros (Hd & _) Hq H Hno.
  assert (Hno0 : EvInvoke MAbort ∉ trace s).
  { apply step_trace in H as [ext Hext]. rewrite Hext in Hno.
    intros Hin. apply Hno. rewrite elem_of_app. by left. }
  destruct (Hq Hno0) as (Hp & Hc & Hcl). clear Hq.
  step_cases H; chan_cases;
    try match goal with
      | H : calls s !! _ = Some _ |- _ =>
          pose proof (Forall_lookup_1 _ _ _ _ Hc H) as Hj; simpl in Hj
      end;
    try done;
    try (exfalso; apply Hno; rewrite elem_of_snoc; by right);
    pc_cases; split_and!; try done;
    try (apply Forall_insert; done);
    try (apply Forall_app_2; [done|]; repeat constructor);
    try (intros ? ?; simplify_eq; done).
  1: by specialize (Hcl i eq_refl).
  1: destruct Hd as [Hd _]; by specialize (Hd eq_refl).
  all: destruct m; try done; exfalso; apply Hno; rewrite elem_of_snoc; by right.
Qed.


(** ** One result per replica *)

Lemma receivers_snoc tr ev :
  receivers (tr ++ [ev]) =
  receivers tr ++ match receiver_of ev with Some r => [r] | None => [] end.
Proof. unfold receivers. rewrite omap_app. simpl. by destruct (receiver_of ev). Qed.

(** Replacing a replica that is not gone by one that is not gone. *)
Lemma exited_lookup_insert (gs : list Goroutine) r g g' r' :
  gs !! r = Some g -> is_exited g = false -> is_exited g' = false ->
  (exists i, <[r:=g']> gs !! r' = Some (Exited i)) <->
  (exists i, gs !! r' = Some (Exited i)).
Proof.
  intros Hr Hg Hg'. destruct (decide (r = r')) as [<-|Hne].
  - rewrite list_lookup_insert_eq by (by eapply lookup_lt_Some).
    rewrite Hr. split; intros [i ?]; simplify_eq; done.
  - by rewrite list_lookup_insert_ne.
Qed.

Lemma once_inv_step s a s' : once_inv s -> step a s = Some s' -> once_inv s'.
Proof.
  intros (Hnd & Hiff) H. unfold once_inv.
  step_cases H; rewrite ?receivers_snoc, ?app_nil_r; simpl;
    try (split; [done|]; intros r'; rewrite Hiff;
         by rewrite exited_lookup_insert);
    try done.
  all: match goal with
       | H : goroutines _ !! ?r = Some (Sending _ _) |- _ =>
           assert (Hnew : r ∉ receivers (trace s))
             by (rewrite Hiff, H; by intros [? ?]);
           pose proof (lookup_lt_Some _ _ _ H) as Hlt
       end.
  all: split;
    [ apply NoDup_app; split_and!;
        [done | intros ? ? ->%list_elem_of_singleton; done | apply NoDup_singleton]
    | intros r'; rewrite elem_of_snoc, Hiff;
      destruct (decide (r = r')) as [<-|Hne];
      [ rewrite list_lookup_insert_eq by done; split; eauto
      | rewrite list_lookup_insert_ne by done; split;
        [intros [?|?]; [done|congruence] | by left] ] ].
Qed.


(** ** The further invariants along a run *)

Lemma Start_more_inv wg d s0 :
  Start wg d = Some s0 -> failure_inv s0 /\ no_abort_inv s0 /\ once_inv s0.
Proof.
  intros H. apply Start_shape in H
    as (Hi & Hd & Hc & Ht & Hp & Hcs & Hpc & Htot & Hgs).
  unfold failure_inv, no_abort_inv, once_inv.
  rewrite Hc, Ht, Hpc, Hp. unfold loop, range. simpl. split_and!.
  - by repeat case_match.
  - intros _. split_and!; [done|constructor|]. intros i. by repeat case_match.
  - constructor.
  - intros r. rewrite elem_of_nil. split; [done|]. intros [i Hr].
    eapply Forall_lookup_1 in Hgs as (j & w & ? & _); [|done]. done.
Qed.

Lemma more_inv_reachable wg d s0 s :
  Start wg d = Some s0 -> reachable s0 s ->
  failure_inv s /\ no_abort_inv s /\ once_inv s.
Proof.
  intros H0 Hr.
  assert (Hboth : run_inv d s /\ failure_inv s /\ no_abort_inv s /\ once_inv s);
    [|tauto].
  revert s Hr. apply reachable_ind.
  - split; [by eapply Start_run_inv|by eapply Start_more_inv].
  - intros s a s' _ (Hinv & Hf & Hq & Ho) H.
    pose proof Hinv as (_ & Hd & _). split_and!;
      eauto using run_inv_step, failure_inv_step, no_abort_inv_step,
        once_inv_step.
Qed.

Lemma execution_more_inv wg d sched s :
  execution wg d sched = Some s ->
  failure_inv s /\ no_abort_inv s /\ once_inv s.
Proof.
  intros (s0 & H0 & Hr)%execution_reachable. by eapply more_inv_reachable.
Qed.

(** ** Signals stay set; only [run] writes the result *)

Lemma step_signals s a s' :
  step a s = Some s' ->
  (abort (inst s) = Closed -> abort (inst s') = Closed) /\
  (done (inst s) = Closed -> done (inst s') = Closed) /\
  (a <> StepCollector ->
   err (inst s') = err (inst s) /\ done (inst s') = done (inst s)).
Proof. intros H. step_cases H; chan_cases; split_and!; done. Qed.

Lemma exec_abort_closed sched s s' :
  exec sched s = Some s' -> abort (inst s) = Closed -> abort (inst s') = Closed.
Proof.
  revert s. induction sched as [|a sched IH]; intros s H Ha; simpl in H.
  - by simplify_eq.
  - destruct (step a s) as [s1|] eqn:H1; [|done].
    apply (IH s1); [done|]. by apply (step_signals _ _ _ H1).
Qed.




(** ** What Start launches *)

Lemma spawn_replicas cs ws i t gs t' gs' :
  (i + length ws <= length cs)%nat ->
  spawn cs ws i (t, gs) = Some (t', gs') ->
  gs' = gs ++ replicas (drop i cs) ws i.
Proof.
  revert i t gs. induction ws as [|w ws IH]; intros i t gs Hlen H; simpl in *.
  - simplify_eq. destruct (drop i cs); by rewrite app_nil_r.
  - destruct (cs !! i) as [c|] eqn:Hc; [|done].
    rewrite (drop_S _ _ _ Hc). simpl. rewrite launch_spec in H.
    apply IH in H; [|lia]. by rewrite H, <- app_assoc.
Qed.

Lemma Start_goroutines wg d s0 :
  well_formed wg -> Start wg d = Some s0 ->
  goroutines s0 = replicas (counts wg) (workers wg) 0.
Proof.
  unfold well_formed, Start. intros Hwf H.
  destruct (spawn _ _ _ _) as [[t gs]|] eqn:Hs; simplify_eq. simpl.
  apply spawn_replicas in Hs; [|lia]. by rewrite Hs.
Qed.

Lemma length_replicas cs ws i :
  length cs = length ws -> Forall (fun c => 0 <= c) cs ->
  Z.of_nat (length (replicas cs ws i)) = sum_counts cs.
Proof.
  revert ws i. induction cs as [|c cs IH]; intros [|w ws] i Hlen Hpos;
    simplify_eq/=; [done|].
  apply Forall_cons in Hpos as [Hc Hpos].
  rewrite length_app, length_replicate, Nat2Z.inj_add, (IH ws (S i)) by done.
  lia.
Qed.

Lemma sum_counts_lower cs :
  Forall (fun c => 1 <= c) cs -> Z.of_nat (length cs) <= sum_counts cs.
Proof. induction 1 as [|c cs Hc _ IH]; simpl; lia. Qed.

(** ** Groups built through the API *)

Lemma build_snoc ncpu (ops : list (GroupOp Data)) op :
  build ncpu (ops ++ [op]) = apply_op ncpu (build ncpu ops) op.
Proof. unfold build. by rewrite fold_left_app. Qed.

Lemma build_inv ncpu (ops : list (GroupOp Data)) :
  1 <= ncpu ->
  well_formed (build ncpu ops) /\
  Forall (fun c => 1 <= c) (counts (build ncpu ops)) /\
  workers (build ncpu ops) =
    omap (fun op => match op with OpAdd _ w => Some w | _ => None end) ops /\
  cleaners (build ncpu ops) =
    omap (fun op => match op with OpAddCleaner c => Some c | _ => None end) ops.
Proof.
  intros Hcpu. induction ops as [|op ops (Hwf & Hc & Hw & Hcl)] using rev_ind.
  - by split_and!.
  - rewrite build_snoc, !omap_app. destruct op as [count w|c]; simpl.
    + split_and!.
      * by apply Add_well_formed.
      * apply Forall_app_2; [done|]. constructor; [|constructor].
        destruct (Z.leb_spec count 0); lia.
      * by rewrite Hw.
      * by rewrite Hcl, app_nil_r.
    + split_and!; try done.
      * by rewrite Hw, app_nil_r.
      * by rewrite Hcl.
Qed.


Lemma check_inv_step s a s' :
  err_inv s -> failure_inv s -> check_inv s -> step a s = Some s' ->
  check_inv s'.
Proof.
  intros He Hf Hc H. unfold check_inv, err_inv, failure_inv in *.
  step_cases H; chan_cases;
    rewrite ?checked_snoc, ?failures_received_snoc, ?app_nil_r; simpl;
    try done; destruct_and?;
    repeat match goal with H : checked _ = _ |- _ => rewrite H in * end;
    try done.
  all: try (intros _; destruct (failures (received (trace s))); [done|];
            by specialize (Hf ltac:(done))).
  all: by destruct (checked (trace s)) as [[]|].
Qed.

Lemma check_inv_reachable wg d s0 s :
  Start wg d = Some s0 -> reachable s0 s -> check_inv s.
Proof.
  intros H0 Hr.
  assert (Hboth : (run_inv d s /\ failure_inv s) /\ check_inv s); [|tauto].
  revert s Hr. apply reachable_ind.
  - split; [split; [by eapply Start_run_inv|by eapply Start_more_inv]|].
    apply Start_shape in H0 as (_ & _ & _ & Ht & _).
    unfold check_inv. by rewrite Ht.
  - intros s a s' _ ((Hinv & Hf) & Hc) H. pose proof Hinv as (He & _).
    split_and!;
      eauto using run_inv_step, failure_inv_step, check_inv_step.
Qed.

(** A list without repetition that holds the numbers below [n] has
    length [n]. *)
Lemma length_NoDup_below (l : list nat) n :
  NoDup l -> (forall r, r ∈ l <-> (r < n)%nat) -> length l = n.
Proof.
  intros Hnd Hiff. trans (length (seq 0 n)); [|apply length_seq].
  apply Permutation_length.
  apply NoDup_Permutation; [done|apply NoDup_seq|].
  intros r. rewrite Hiff, elem_of_seq. lia.
Qed.

Lemma length_received tr : length (received tr) = length (receivers tr).
Proof.
  unfold received, receivers. induction tr as [|[] tr IH]; simpl; auto.
Qed.



(** ** A call of Abort on its own *)

Lemma insert_at_end {A} (l : list A) (x y : A) :
  <[length l := y]> (l ++ [x]) = l ++ [y].
Proof.
  replace (length l) with (length l + 0)%nat at 1 by lia.
  by rewrite insert_app_r.
Qed.

Lemma Abort_when_open s :
  panicked s = false -> abort (inst s) = Open ->
  exists s',
    exec [Invoke MAbort; StepCall (length (calls s)); StepCall (length (calls s))] s
      = Some s' /\
    inst s' = mkInstance Closed (done (inst s)) (err (inst s)) /\
    data s' = data s /\ goroutines s' = goroutines s /\
    collector s' = collector s /\ panicked s' = false /\
    calls s' = calls s ++ [AbortReturned].
Proof.
  intros Hp Ha. set (n := length (calls s)).
  set (s1 := log (set_calls s (calls s ++ [enter MAbort])) (EvInvoke MAbort)).
  set (s2 := goto s1 n AbortClose).
  set (s3 := set_abort (goto s2 n AbortReturned) Closed).
  assert (H1 : step (Invoke MAbort) s = Some s1) by (unfold step; by rewrite Hp).
  assert (H2 : step (StepCall n) s1 = Some s2).
  { unfold step, step_call, Wait, Abort, goto. simpl. rewrite Hp.
    rewrite list_lookup_middle by done. by rewrite Ha. }
  assert (H3 : step (StepCall n) s2 = Some s3).
  { unfold step, step_call, Wait, Abort, goto. simpl. rewrite Hp.
    rewrite list_lookup_insert_eq by (rewrite length_app; simpl; lia).
    by rewrite Ha. }
  exists s3. simpl. rewrite H1, H2, H3. split_and!; try done.
  simpl. subst n. by rewrite list_insert_insert_eq, insert_at_end.
Qed.

End Properties.

(** * The claims *)

(** C1.  In every run in which the collector received more than one
    non-nil error, Wait returns the last of them in arrival order; and
    once every worker has returned, a call of Wait does return it. *)
Theorem Wait_returns_last_failure {Data} (wg : Group Data) d sched s :
  execution wg d sched = Some s ->
  (1 < length (failures (received (trace s))))%nat ->
  (forall j v, Wait_result s j = Some v ->
     v = last_failure (received (trace s)) /\ v <> None) /\
  (settled s ->
   exists sched' s' v,
     exec sched' s = Some s' /\
     Wait_result s' (length (calls s)) = Some v /\
     v = last_failure (received (trace s')) /\ v <> None).
Proof.
  intros Hex Hmany. split.
  - intros j v Hw. apply execution_run_inv in Hex.
    eapply Wait_result_failure; [done|done|].
    destruct (failures _); simpl in *; [lia|done].
  - intros Hset. pose proof Hset as (_ & Hlt & _).
    pose proof (execution_full_inv _ _ _ _ Hex Hlt) as Hinv.
    destruct (settled_Wait_returns _ _ Hinv Hset) as (v & sched' & s' & H' & Hw).
    exists sched', s', v. split; [done|]. split; [done|].
    pose proof (execution_app _ _ _ _ _ _ Hex H') as Hex'.
    apply execution_run_inv in Hex'.
    eapply Wait_result_failure; [done|done|].
    apply exec_trace in H' as [ext ->]. rewrite failures_received_app.
    destruct (failures (received (trace s))); simpl in *; [lia|done].
Qed.

Lemma Wait_returns_last_failure_witness :
  exists s : State (list nat),
    execution two_failures [] E1_then_E2 = Some s /\
    failures (received (trace s)) = [E1; E2] /\
    Wait_result s 0 = Some (Some E2) /\
    Some E2 = last_failure (received (trace s)).
Proof.
  eexists. split; [vm_compute; reflexivity|].
  split; [reflexivity|]. split; [reflexivity|].
  refine (proj1 (proj1 (Wait_returns_last_failure two_failures []
                          E1_then_E2 _ _ _) 0%nat (Some E2) _)).
  - reflexivity.
  - simpl. lia.
  - reflexivity.
Defined.

(** C2, as the specification words it, fails: a worker that returns the
    sentinel itself makes Wait return the sentinel although a worker has
    reported a non-nil error. *)
Lemma sentinel_only_on_abort_fails :
  ~ (forall (s : State unit) v,
       execution relays_sentinel () fail_then_wait = Some s ->
       Wait_result s 0 = Some v ->
       sentinel_only_on_abort s v).
Proof.
  intros H.
  destruct (execution relays_sentinel () fail_then_wait) as [s|] eqn:Hs;
    [|by vm_compute in Hs].
  specialize (H s (Some NonErrorAbort) eq_refl).
  vm_compute in Hs. simplify_eq. destruct (H eq_refl) as [Hv _].
  by destruct (Hv eq_refl) as [_ ?].
Qed.

(** C2 (amended).  Wait returns the sentinel exactly when the collector's
    check of the abort channel after the cleaners found it closed and no
    worker had reported a non-nil error, or when the last non-nil error a
    worker reported is the sentinel itself; in every run where the first
    is not the case, Wait returns nil or an error a worker reported. *)
Theorem Wait_sentinel {Data} (wg : Group Data) d sched s j v :
  execution wg d sched = Some s ->
  Wait_result s j = Some v ->
  (v = Some NonErrorAbort <->
   (checked (trace s) = Some true /\ failures (received (trace s)) = []) \/
   last_failure (received (trace s)) = Some NonErrorAbort) /\
  (~ (checked (trace s) = Some true /\ failures (received (trace s)) = []) ->
   v = None \/ exists r e, v = Some e /\ EvRecv r (Some e) ∈ trace s).
Proof.
  intros Hex Hw. apply execution_run_inv in Hex.
  destruct (Wait_result_inv _ _ _ _ Hex Hw) as (_ & _ & b & Hb & ->).
  rewrite Hb. rewrite <- last_failure_None.
  destruct (last_failure _) as [e|] eqn:Hl; simpl.
  - split.
    + split; [by right|]. intros [[_ ?]|?]; congruence.
    + intros _. right. apply last_failure_received in Hl as [r Hr]. eauto.
  - destruct b; (split; [split|]); try done.
    + by left.
    + intros []. done.
    + intros [[? _]|?]; congruence.
    + by left.
Qed.

Lemma Wait_sentinel_witness :
  exists s : State unit,
    execution obedient () abort_then_wait = Some s /\
    Wait_result s 1 = Some (Some NonErrorAbort) /\
    (Some NonErrorAbort = Some NonErrorAbort <->
     (checked (trace s) = Some true /\ failures (received (trace s)) = []) \/
     last_failure (received (trace s)) = Some NonErrorAbort).
Proof.
  eexists. split; [vm_compute; reflexivity|]. split; [reflexivity|].
  apply (Wait_sentinel obedient () abort_then_wait _ 1); reflexivity.
Defined.

(** C3, as the specification words it, fails: after a call of Abort, with
    every worker returning nil, Wait returns the sentinel and not nil. *)
Lemma nil_workers_nil_result_fails :
  ~ (forall (s : State unit) v,
       execution obedient () abort_then_wait = Some s ->
       Wait_result s 1 = Some v ->
       nil_workers_nil_result s v).
Proof.
  intros H.
  destruct (execution obedient () abort_then_wait) as [s|] eqn:Hs;
    [|by vm_compute in Hs].
  specialize (H s (Some NonErrorAbort) eq_refl).
  vm_compute in Hs. simplify_eq. by specialize (H eq_refl eq_refl).
Qed.

(** C3 (amended).  In every run in which every worker replica returns nil
    and the collector's check after the cleaners does not find the abort
    channel closed, Wait returns nil, and when it has returned, every
    replica has returned and every registered cleaner has run, in order;
    once every worker has returned with no abort ordered, a call of Wait
    does return nil. *)
Theorem Wait_nil_when_all_nil {Data} (wg : Group Data) d sched s :
  execution wg d sched = Some s ->
  Z.of_nat (length (goroutines s)) < 2 ^ 63 ->
  failures (returned (trace s)) = [] ->
  checked (trace s) <> Some true ->
  (forall j v, Wait_result s j = Some v ->
     v = None /\
     (forall r, (r < length (goroutines s))%nat ->
                exists e, EvReturn r e ∈ trace s /\ EvRecv r e ∈ trace s) /\
     cleaned (trace s) = seq 0 (length (cleaners wg)) /\
     data s = run_all (cleaners wg) d) /\
  (settled s -> abort (inst s) = Open -> Wait_can_return s None).
Proof.
  intros Hex Hlt Hnil Hchk.
  pose proof (execution_cleaners _ _ _ _ Hex) as Hcs.
  apply execution_full_inv in Hex as Hfull; [|done].
  destruct Hfull as (Hrun & Hcount & Hhist). split.
  - intros j v Hw.
    destruct (Wait_result_inv _ _ _ _ Hrun Hw) as (Hpc & _ & b & Hb & ->).
    destruct Hrun as (_ & _ & _ & Hret & (Hcl & Hdata & _) & Hrecv).
    apply no_failure_received in Hnil; [|done].
    apply last_failure_None in Hnil. rewrite Hnil. split_and!.
    + destruct b; [congruence|done].
    + intros r Hr. apply all_returned; try done.
      destruct Hcount as [_ Hx]. rewrite Hpc in Hx. done.
    + unfold cleaners_called in Hcl. by rewrite Hpc, Hcs in Hcl.
    + unfold cleaners_called in Hdata. rewrite Hpc, Hcs in Hdata.
      by rewrite firstn_all in Hdata.
  - intros Hset Hopen.
    destruct (collector_finishes d s) as
      (sched' & s1 & H1 & Hpc & (Hp & _) & Hc & (Hrun1 & _) & Hact); [done..|].
    assert (Hcalm : calm s1).
    { apply (calm_exec d sched' s s1); [done| |done|done]. by split_and!. }
    destruct Hcalm as (_ & Hnil1 & Hchk1).
    pose proof Hrun1 as (He & (Hd & _) & _ & _ & _ & Hrecv).
    unfold err_inv in He. rewrite Hpc in He. destruct He as (b & Hb & Herr).
    apply no_failure_received in Hnil1; [|done].
    apply last_failure_None in Hnil1. rewrite Hnil1 in Herr.
    assert (b = false) as -> by (destruct b; congruence). simpl in Herr.
    apply Hd in Hpc.
    destruct (Wait_after_done s1 Hp Hpc) as (s2 & H2 & Hw & _).
    exists (sched' ++ [Invoke MWait; StepCall (length (calls s1));
                       StepCall (length (calls s1))]), s2.
    rewrite exec_app, H1. simpl. split; [done|]. by rewrite <- Hc, <- Herr.
Qed.

Lemma Wait_nil_when_all_nil_witness :
  exists s : State (list nat),
    execution quiet [] quiet_run = Some s /\
    Wait_result s 0 = Some None /\
    @None error = None /\
    (forall r, (r < length (goroutines s))%nat ->
               exists e, EvReturn r e ∈ trace s /\ EvRecv r e ∈ trace s) /\
    cleaned (trace s) = seq 0 (length (cleaners quiet)) /\
    data s = run_all (cleaners quiet) [].
Proof.
  eexists. split; [vm_compute; reflexivity|]. split; [reflexivity|].
  refine (proj1 (Wait_nil_when_all_nil quiet [] quiet_run _ _ _ _ _)
                0%nat None _).
  - reflexivity.
  - simpl. lia.
  - reflexivity.
  - simpl. discriminate.
  - reflexivity.
Defined.

(** C9.  Once the error slot holds a non-nil error, a nil result of a
    worker leaves the Instance as it is and takes the collector straight
    to the next iteration; and the only step that changes the slot is the
    collector storing a non-nil error it received from a worker. *)
Theorem nil_result_keeps_error {Data} (wg : Group Data) d sched s e :
  execution wg d sched = Some s ->
  err (inst s) = Some e ->
  (forall r i s',
     goroutines s !! r = Some (Sending i None) ->
     step (Receive r) s = Some s' ->
     inst s' = inst s /\
     exists k, collector s = CRecv k /\
               collector s' = loop (run_cleaners s) (run_total s) (k + 1)) /\
  (forall a s',
     step a s = Some s' ->
     err (inst s') = Some e \/
     exists i e', a = StepCollector /\ collector s = CSetErr i e' /\
                  err (inst s') = Some e' /\
                  last_failure (received (trace s)) = Some e').
Proof.
  intros Hex He. apply execution_run_inv in Hex as (Hinv & _). split.
  - intros r i s' Hr H. unfold step in H.
    destruct (panicked s); [done|]. unfold step_receive in H.
    destruct (collector s) eqn:Hpc; try done. rewrite Hr in H.
    simplify_eq. simpl. eauto.
  - intros a s' H. unfold err_inv in Hinv.
    step_cases H; try (by left); try congruence.
    right. destruct Hinv. eauto 10.
Qed.

Lemma nil_result_keeps_error_witness :
  exists s : State unit,
    execution fail_and_succeed () failure_recorded = Some s /\
    err (inst s) = Some E1 /\
    goroutines s !! 1%nat = Some (Sending 1 None) /\
    forall s', step (Receive 1) s = Some s' -> inst s' = inst s.
Proof.
  eexists. split; [vm_compute; reflexivity|]. split; [reflexivity|].
  split; [reflexivity|]. intros s' Hs'.
  refine (proj1 (proj1 (nil_result_keeps_error fail_and_succeed ()
                          failure_recorded _ E1 _ _) 1%nat 1%nat s' _ Hs'));
    reflexivity.
Defined.



(** C5.  Once Done is set, no step writes the error slot or reopens Done;
    so every call of Wait, whenever it is made and however the calls
    interleave, returns the value the slot holds now; and a call made
    after Done returns it without waiting for anything. *)
Theorem err_frozen_after_done {Data} (wg : Group Data) d sched s :
  execution wg d sched = Some s ->
  done (inst s) = Closed ->
  (forall a s', step a s = Some s' ->
     done (inst s') = Closed /\ err (inst s') = err (inst s)) /\
  (forall sched' s' j v,
     exec sched' s = Some s' -> Wait_result s' j = Some v ->
     v = err (inst s)) /\
  (panicked s = false ->
   exists s',
     exec [Invoke MWait; StepCall (length (calls s)); StepCall (length (calls s))] s
       = Some s' /\
     Wait_result s' (length (calls s)) = Some (err (inst s))).
Proof.
  intros Hex Hd. apply execution_run_inv in Hex. split_and!.
  - intros a s' H. by eapply done_frozen.
  - intros sched' s' j v H' Hw.
    destruct (done_frozen_exec _ _ _ _ Hex Hd H') as (_ & <- & Hinv').
    by destruct (Wait_result_inv _ _ _ _ Hinv' Hw) as (_ & ? & _).
  - intros Hp. destruct (Wait_after_done s Hp Hd) as (s' & ? & ? & _). eauto.
Qed.

Lemma err_frozen_after_done_witness :
  exists s : State (list nat),
    execution two_failures [] E1_then_E2 = Some s /\
    done (inst s) = Closed /\
    forall sched' s' j v,
      exec sched' s = Some s' -> Wait_result s' j = Some v -> v = Some E2.
Proof.
  eexists. split; [vm_compute; reflexivity|]. split; [reflexivity|].
  refine (proj1 (proj2 (err_frozen_after_done two_failures [] E1_then_E2
                          _ _ _))); reflexivity.
Defined.

(** C6.  Add with a count of zero or less registers the worker with the
    number of processors as its count, Add with a count of one or more
    registers it with that count, whatever its size; and Start launches that many
    copies of the worker, after the replicas it launched before. *)
Theorem Add_replicas {Data} (wg : Group Data) (NumCPU count : Z) w d :
  well_formed wg ->
  1 <= NumCPU ->
  let n := if count <=? 0 then NumCPU else count in
  let wg' := Add NumCPU count w wg in
  (count <= 0 -> n = NumCPU) /\ (1 <= count -> n = count) /\
  well_formed wg' /\
  counts wg' = counts wg ++ [n] /\ workers wg' = workers wg ++ [w] /\
  cleaners wg' = cleaners wg /\
  exists s0 s0',
    Start wg d = Some s0 /\ Start wg' d = Some s0' /\
    goroutines s0' =
      goroutines s0 ++ replicate (Z.to_nat n) (Running (length (workers wg)) w) /\
    Z.of_nat (length (replicate (Z.to_nat n) (Running (length (workers wg)) w)))
      = n /\
    Forall (fun g => (worker_index g < length (workers wg))%nat) (goroutines s0).
Proof.
  intros Hwf Hcpu n wg'. split_and!.
  - intros. subst n. destruct (Z.leb_spec count 0); [done|lia].
  - intros. subst n. destruct (Z.leb_spec count 0); [lia|done].
  - by apply Add_well_formed.
  - done.
  - done.
  - done.
  - destruct (Start_total wg d Hwf) as [s0 H0].
    destruct (Start_Add NumCPU count w wg d s0 Hwf H0) as (s0' & H0' & Hgs).
    exists s0, s0'. split_and!; try done.
    + rewrite length_replicate. subst n.
      destruct (Z.leb_spec count 0); lia.
    + apply Start_shape in H0 as (_ & _ & _ & _ & _ & _ & _ & _ & Hall).
      eapply Forall_impl; [exact Hall|]. by intros g (j & w' & -> & ?).
Qed.

Lemma Add_replicas_witness :
  exists s0 s0' : State unit,
    Start (Add 4 1 (Return None) empty) () = Some s0 /\
    Start (Add 4 0 (Await (Return None)) (Add 4 1 (Return None) empty)) ()
      = Some s0' /\
    goroutines s0' =
      goroutines s0 ++ replicate 4 (Running 1 (Await (Return None))).
Proof.
  destruct (Add_replicas (Add 4 1 (Return None) (@empty unit)) 4 0
              (Await (Return None)) ())
    as (_ & _ & _ & _ & _ & _ & s0 & s0' & H0 & H0' & Hgs & _).
  - reflexivity.
  - lia.
  - exists s0, s0'. split; [exact H0|]. split; [exact H0'|]. exact Hgs.
Defined.

(** C7 (what the code does).  A call of Abort that has found the abort
    channel open and the collector, or another call of Abort, that has
    found it open as well, both close it: the second [close] panics. *)
Theorem Abort_race_panics :
  panicked <$> execution failing () abort_during_failure = Some true /\
  panicked <$> execution obedient () two_aborts = Some true.
Proof. split; reflexivity. Qed.

(** C8.  Run is Start followed at once by Wait: the Instance is the one
    Start made, with the caller in Wait as its only call, and whatever
    the schedule does from there it does after Start and the call of Wait
    alike. *)
Theorem Run_is_Start_then_Wait {Data} (wg : Group Data) d :
  Run wg d = Start_then_Wait wg d /\
  (forall sched,
     Run wg d ≫= exec sched = execution wg d (Invoke MWait :: sched)) /\
  (forall s0, Start wg d = Some s0 ->
     exists s, Run wg d = Some s /\ calls s = [WaitRecv] /\
               inst s = inst s0 /\ data s = data s0 /\
               goroutines s = goroutines s0 /\ collector s = collector s0 /\
               panicked s = false) /\
  (Start wg d = None -> Run wg d = None).
Proof.
  unfold Run, Start_then_Wait, execution. split_and!.
  - destruct (Start wg d); simpl; [|done]. by destruct (step _ _).
  - intros sched. destruct (Start wg d); simpl; [|done]. by destruct (step _ _).
  - intros s0 H0. rewrite H0.
    apply Start_shape in H0 as (_ & _ & Hc & _ & Hp & _).
    unfold step. rewrite Hp. eexists. split; [done|]. simpl. by rewrite Hc.
  - by intros ->.
Qed.

Lemma Run_is_Start_then_Wait_witness :
  exists s : State (list nat),
    Run two_failures [] ≫= exec E1_then_E2_in_Run = Some s /\
    Wait_result s 0 = Some (Some E2).
Proof.
  rewrite (proj1 (proj2 (Run_is_Start_then_Wait two_failures []))
             E1_then_E2_in_Run).
  eexists. split; [vm_compute; reflexivity|]. reflexivity.
Defined.

(** C10.  Start on a Group without workers launches no replica; the
    collector, taking its steps one after the other, calls the cleaners
    in order, finds the abort channel open and sets Done, after which Wait
    returns nil; and in every run of such a Group, Wait returns nil unless
    Abort was called before Done was set. *)
Theorem Start_empty_group {Data} (wg : Group Data) d :
  workers wg = [] ->
  exists s0,
    Start wg d = Some s0 /\ goroutines s0 = [] /\ run_total s0 = 0 /\
    (exists s1,
       exec (replicate (length (cleaners wg) + 2) StepCollector) s0 = Some s1 /\
       trace s1 =
         (EvClean <$> seq 0 (length (cleaners wg))) ++ [EvCheck false; EvDone] /\
       data s1 = run_all (cleaners wg) d /\
       inst s1 = mkInstance Open Closed None /\
       Wait_can_return s1 None) /\
    (forall sched s j v,
       exec sched s0 = Some s -> Wait_result s j = Some v ->
       EvInvoke MAbort ∉ before_done (trace s) -> v = None).
Proof.
  intros Hw.
  destruct (Start wg d) as [s0|] eqn:H0;
    [|by unfold Start in H0; rewrite Hw in H0].
  pose proof (Start_run_inv _ _ _ H0) as Hinv0.
  pose proof H0 as Hshape. apply Start_shape in Hshape
    as (Hi & Hd & Hc & Ht & Hp & Hcs & Hpc & Htot & _).
  assert (Hg : goroutines s0 = []).
  { unfold Start in H0. rewrite Hw in H0. simpl in H0.
    injection H0 as <-. reflexivity. }
  rewrite Hg in Htot. simpl in Htot. change (wrap64 0) with 0 in Htot.
  exists s0. split_and!; try done.
  - destruct (cleaners_exec (length (cleaners wg)) s0 0)
      as (s' & H' & Hpc' & Ht' & Hd' & Hi' & Hc' & Hp' & _ & Hcs');
      [done|by rewrite Hcs|by rewrite Hpc, Htot, Hcs|].
    set (s2 := log (set_collector s' CCloseDone) (EvCheck false)).
    set (s3 := log (set_collector (set_done s2 Closed) CExit) EvDone).
    assert (H2 : step StepCollector s' = Some s2).
    { unfold step, run. rewrite Hp', Hpc', Hi', Hi. reflexivity. }
    assert (H3 : step StepCollector s2 = Some s3).
    { unfold step, run. simpl. rewrite Hp', Hi', Hi. reflexivity. }
    exists s3. rewrite replicate_add, exec_app, H'. simpl. rewrite H2, H3.
    split_and!; try done.
    + simpl. by rewrite Ht', Ht, <- app_assoc.
    + simpl. by rewrite Hd', Hcs, Hd.
    + simpl. by rewrite Hi', Hi.
    + destruct (Wait_after_done s3) as (s4 & H4 & Hw4 & _);
        [done|done|].
      exists [Invoke MWait; StepCall (length (calls s3));
              StepCall (length (calls s3))], s4.
      split; [done|]. rewrite Hw4. simpl. by rewrite Hi', Hi.
  - intros sched s j v Hs Hwait Hno.
    assert (Hr : reachable s0 s) by (by exists sched).
    pose proof (run_inv_reachable _ _ _ _ H0 Hr) as Hinv.
    destruct (no_workers_no_failures _ _ Hr Hg) as [_ Hnone];
      [by rewrite Ht|].
    destruct (Wait_result_inv _ _ _ _ Hinv Hwait) as (_ & _ & b & Hb & ->).
    rewrite Hnone. destruct b; [|done]. exfalso.
    destruct Hinv as (_ & _ & (_ & _ & _ & Hk) & _).
    destruct (Hk Hb) as [?|Hf]; [done|]. by rewrite Hnone in Hf.
Qed.

Lemma Start_empty_group_witness :
  exists s0 : State (list nat),
    Start (AddCleaner (fun d => d ++ [7%nat]) empty) [] = Some s0 /\
    goroutines s0 = [] /\
    exists s1,
      exec (replicate 3 StepCollector) s0 = Some s1 /\
      trace s1 = [EvClean 0; EvCheck false; EvDone] /\
      data s1 = [7%nat] /\ Wait_can_return s1 None.
Proof.
  destruct (Start_empty_group (AddCleaner (fun d => d ++ [7%nat]) empty) [])
    as (s0 & H0 & Hg & _ & (s1 & H1 & Ht & Hd & _ & Hw) & _).
  - reflexivity.
  - exists s0. split; [exact H0|]. split; [exact Hg|].
    exists s1. split; [exact H1|]. split; [exact Ht|]. split; [exact Hd|].
    exact Hw.
Defined.

(** * Further properties of the code *)

(** X1.  Done never blocks and changes nothing: on a live process a call
    of Done returns after its one [select], with the Instance, the
    workers and the collector as they were, and it returns true exactly
    when [run] has finished. *)
Theorem Done_polls {Data} (wg : Group Data) d sched s :
  execution wg d sched = Some s ->
  panicked s = false ->
  exists s',
    exec (Done_alone s) s = Some s' /\
    Done_result s' (length (calls s)) = Some (ready (done (inst s))) /\
    (ready (done (inst s)) = true <-> collector s = CExit) /\
    inst s' = inst s /\ data s' = data s /\ goroutines s' = goroutines s /\
    collector s' = collector s /\ panicked s' = false.
Proof.
  intros Hex Hp. apply execution_run_inv in Hex as (_ & (Hd & _) & _).
  set (n := length (calls s)).
  set (s1 := log (set_calls s (calls s ++ [enter MDone])) (EvInvoke MDone)).
  set (s2 := goto s1 n (DoneReturned (ready (done (inst s))))).
  assert (H1 : step (Invoke MDone) s = Some s1) by (unfold step; by rewrite Hp).
  assert (H2 : step (StepCall n) s1 = Some s2).
  { unfold step, step_call. simpl. rewrite Hp.
    rewrite list_lookup_middle by done. done. }
  exists s2. unfold Done_alone. simpl. fold n. rewrite H1, H2.
  split_and!; try done.
  - unfold Done_result, s2, goto. simpl.
    rewrite list_lookup_insert_eq by (rewrite length_app; simpl; lia). done.
  - rewrite <- Hd. by destruct (done (inst s)).
Qed.

Lemma Done_polls_witness :
  exists s : State (list nat),
    execution mixed [] failure_handled = Some s /\
    exists s',
      exec (Done_alone s) s = Some s' /\
      Done_result s' 0 = Some false /\ inst s' = inst s.
Proof.
  eexists. split; [vm_compute; reflexivity|].
  match goal with
  | |- context [Done_alone ?s] =>
      destruct (Done_polls mixed [] failure_handled s)
        as (s' & H' & Hr & _ & Hi & _)
  end.
  - reflexivity.
  - reflexivity.
  - exists s'. split; [exact H'|]. split; [exact Hr|exact Hi].
Defined.

(** X2.  Done is set only when everything is over: once [in.done] is
    closed, every replica has returned and its result has been received,
    every cleaner has run on [data], in registration order, and the error
    slot holds the final result. *)
Theorem done_means_finished {Data} (wg : Group Data) d sched s :
  execution wg d sched = Some s ->
  Z.of_nat (length (goroutines s)) < 2 ^ 63 ->
  done (inst s) = Closed ->
  (forall r g, goroutines s !! r = Some g -> exists i, g = Exited i) /\
  cleaned (trace s) = seq 0 (length (cleaners wg)) /\
  data s = run_all (cleaners wg) d /\
  exists b, checked (trace s) = Some b /\
            err (inst s) = final_err b (last_failure (received (trace s))).
Proof.
  intros Hex Hlt Hdone.
  pose proof (execution_cleaners _ _ _ _ Hex) as Hcs.
  apply execution_full_inv in Hex
    as ((He & (Hd & _) & _ & _ & (Hcl & Hdata & _) & _) & (_ & Hx) & _);
    [|done].
  apply Hd in Hdone. unfold err_inv, cleaners_called in *.
  rewrite Hdone, ?Hcs in *. split_and!; try done.
  - intros r g Hg.
    assert (is_exited g = true) by (eapply exited_all; [|done]; lia).
    destruct g; try done. eauto.
  - by rewrite firstn_all in Hdata.
Qed.

Lemma done_means_finished_witness :
  exists s : State (list nat),
    execution mixed [] mixed_run = Some s /\
    done (inst s) = Closed /\
    cleaned (trace s) = seq 0 (length (cleaners mixed)) /\
    data s = run_all (cleaners mixed) [].
Proof.
  eexists. split; [vm_compute; reflexivity|]. split; [reflexivity|].
  refine (let H := done_means_finished mixed [] mixed_run _ _ _ _ in
          conj (proj1 (proj2 H)) (proj1 (proj2 (proj2 H))));
    [reflexivity | simpl; lia | reflexivity].
Defined.

(** X3.  A failure orders an abort: once [run] has gone on from a non-nil
    result, [in.abort] is closed, so that every later poll by a worker
    sees it; and the check after the cleaners then finds it closed. *)
Theorem failure_closes_abort {Data} (wg : Group Data) d sched s :
  execution wg d sched = Some s ->
  failures (received (trace s)) <> [] ->
  ((forall i e, collector s <> CSetErr i e) ->
   (forall i, collector s <> CSelect i) ->
   (forall i, collector s <> CClose i) ->
   abort (inst s) = Closed) /\
  (checked (trace s) <> Some false).
Proof.
  intros Hex Hfail.
  destruct (execution_more_inv _ _ _ _ Hex) as (Hf & _).
  apply execution_reachable in Hex as (s0 & H0 & Hr).
  pose proof (check_inv_reachable _ _ _ _ H0 Hr) as Hc. split.
  - intros H1 H2 H3. unfold failure_inv in Hf.
    destruct (collector s) eqn:Hpc; try (by apply Hf);
      [by destruct (H1 i e) | by destruct (H2 i) | by destruct (H3 i)].
  - intros Hchk. by apply Hc in Hchk.
Qed.

Lemma failure_closes_abort_witness :
  exists s : State (list nat),
    execution mixed [] failure_handled = Some s /\
    failures (received (trace s)) = [E1] /\
    abort (inst s) = Closed.
Proof.
  eexists. split; [vm_compute; reflexivity|]. split; [reflexivity|].
  refine (proj1 (failure_closes_abort mixed [] failure_handled _ _ _) _ _ _);
    [reflexivity|..]; simpl; done.
Defined.





(** X6.  Only [run] writes the result: a step of a worker or of a call
    of Wait, Done or Abort leaves the error slot and [in.done] as they
    are, and no step reopens a closed channel. *)
Theorem only_run_writes {Data} (s : State Data) a s' :
  step a s = Some s' ->
  (a <> StepCollector ->
   err (inst s') = err (inst s) /\ done (inst s') = done (inst s)) /\
  (abort (inst s) = Closed -> abort (inst s') = Closed) /\
  (done (inst s) = Closed -> done (inst s') = Closed).
Proof. intros H. destruct (step_signals _ _ _ H) as (? & ? & ?). done. Qed.

Lemma only_run_writes_witness :
  exists s s' : State unit,
    execution obedient () [Invoke MAbort; StepCall 0] = Some s /\
    step (StepCall 0) s = Some s' /\
    abort (inst s) = Open /\ abort (inst s') = Closed /\
    err (inst s') = err (inst s) /\ done (inst s') = done (inst s).
Proof.
  eexists _, _. split; [vm_compute; reflexivity|].
  split; [vm_compute; reflexivity|]. split; [reflexivity|].
  split; [reflexivity|].
  refine (proj1 (only_run_writes _ (StepCall 0) _ _) _);
    [reflexivity|discriminate].
Defined.

(** X7.  AddCleaner puts the cleaner last and touches nothing else:
    Start launches the same replicas as before, and when the run is over
    the new cleaner has run on what the earlier cleaners left of [data]. *)
Theorem AddCleaner_runs_last {Data} (wg : Group Data) c d :
  workers (AddCleaner c wg) = workers wg /\
  counts (AddCleaner c wg) = counts wg /\
  cleaners (AddCleaner c wg) = cleaners wg ++ [c] /\
  (forall s0, Start wg d = Some s0 ->
     exists s0', Start (AddCleaner c wg) d = Some s0' /\
                 goroutines s0' = goroutines s0 /\
                 run_total s0' = run_total s0) /\
  (forall sched s,
     execution (AddCleaner c wg) d sched = Some s ->
     done (inst s) = Closed ->
     data s = c (run_all (cleaners wg) d) /\
     cleaned (trace s) = seq 0 (S (length (cleaners wg)))).
Proof.
  split_and!; try done.
  - intros s0 H0. unfold Start in *. simpl.
    destruct (spawn _ _ _ _) as [[t gs]|]; simplify_eq. eauto.
  - intros sched s Hex Hdone.
    pose proof (execution_cleaners _ _ _ _ Hex) as Hcs.
    apply execution_run_inv in Hex
      as (_ & (Hd & _) & _ & _ & (Hcl & Hdata & _) & _).
    apply Hd in Hdone. unfold cleaners_called in *.
    rewrite Hdone, Hcs in *. simpl in *.
    rewrite firstn_all, run_all_snoc in Hdata.
    rewrite length_app, Nat.add_1_r in Hcl. done.
Qed.


(** X9.  A Group built with Add and AddCleaner keeps one count per
    worker, every count at least 1, and workers and cleaners in the order
    of the calls; Start on it does not panic and launches as many
    replicas as the counts add up to, at least one per worker. *)
Theorem built_group {Data} (NumCPU : Z) (ops : list (GroupOp Data)) d :
  1 <= NumCPU ->
  let wg := build NumCPU ops in
  well_formed wg /\
  Forall (fun c => 1 <= c) (counts wg) /\
  workers wg =
    omap (fun op => match op with OpAdd _ w => Some w | _ => None end) ops /\
  cleaners wg =
    omap (fun op => match op with OpAddCleaner c => Some c | _ => None end) ops /\
  exists s0,
    Start wg d = Some s0 /\
    Z.of_nat (length (goroutines s0)) = sum_counts (counts wg) /\
    (length (workers wg) <= length (goroutines s0))%nat.
Proof.
  intros Hcpu wg. destruct (build_inv NumCPU ops Hcpu) as (Hwf & Hc & Hw & Hcl).
  split_and!; try done.
  destruct (Start_total wg d Hwf) as [s0 H0]. exists s0.
  assert (Hlen : Z.of_nat (length (goroutines s0)) = sum_counts (counts wg)).
  { rewrite (Start_goroutines _ _ _ Hwf H0). apply length_replicas; [done|].
    eapply Forall_impl; [exact Hc|]. intros. simpl in *. lia. }
  split_and!; try done.
  pose proof (sum_counts_lower _ Hc). unfold well_formed in Hwf.
  subst wg. lia.
Qed.

Lemma built_group_witness :
  exists s0 : State (list nat),
    Start (build 4 three_ops) [] = Some s0 /\
    Z.of_nat (length (goroutines s0)) = sum_counts (counts (build 4 three_ops)) /\
    (length (workers (build 4 three_ops)) <= length (goroutines s0))%nat.
Proof.
  destruct (built_group 4 three_ops []) as (_ & _ & _ & _ & s0 & H0 & Hn & Hw).
  - lia.
  - exists s0. split; [exact H0|]. split; [exact Hn|exact Hw].
Defined.



(** X11.  [run] takes exactly one result from each replica: no replica is
    received twice, the replicas received are those that are gone, and
    when Done is set the results received are as many as the replicas
    launched, one from each. *)
Theorem one_result_per_replica {Data} (wg : Group Data) d sched s :
  execution wg d sched = Some s ->
  NoDup (receivers (trace s)) /\
  (forall r, r ∈ receivers (trace s) <->
             exists i, goroutines s !! r = Some (Exited i)) /\
  (Z.of_nat (length (goroutines s)) < 2 ^ 63 ->
   done (inst s) = Closed ->
   (forall r, r ∈ receivers (trace s) <-> (r < length (goroutines s))%nat) /\
   length (received (trace s)) = length (goroutines s)).
Proof.
  intros Hex. destruct (execution_more_inv _ _ _ _ Hex) as (_ & _ & Hnd & Hiff).
  split_and!; try done. intros Hlt Hdone.
  apply execution_full_inv in Hex as ((_ & (Hd & _) & _) & (_ & Hx) & _);
    [|done].
  apply Hd in Hdone. rewrite Hdone in Hx.
  assert (Hall : forall r, r ∈ receivers (trace s) <->
                           (r < length (goroutines s))%nat).
  { intros r. rewrite Hiff. split.
    - intros [i Hr]. by eapply lookup_lt_Some.
    - intros Hr. destruct (lookup_lt_is_Some_2 _ _ Hr) as [g Hg].
      assert (is_exited g = true) by (eapply exited_all; [|done]; lia).
      destruct g; try done. eauto. }
  split; [done|]. rewrite length_received. by apply length_NoDup_below.
Qed.

Lemma one_result_per_replica_witness :
  exists s : State (list nat),
    execution mixed [] mixed_run = Some s /\
    NoDup (receivers (trace s)) /\ receivers (trace s) = [0; 1]%nat.
Proof.
  eexists. split; [vm_compute; reflexivity|].
  split; [|reflexivity].
  refine (proj1 (one_result_per_replica mixed [] mixed_run _ _)).
  reflexivity.
Defined.

(** X12.  A call of Abort that nothing interrupts closes [in.abort] if it
    is open and leaves it closed if it is closed, does not panic, and
    touches nothing else: not the error slot, not [in.done], not the
    workers, not the collector. *)
Theorem Abort_uninterrupted {Data} (s : State Data) :
  panicked s = false ->
  exists s',
    exec (Abort_alone s) s = Some s' /\
    abort (inst s') = Closed /\
    done (inst s') = done (inst s) /\ err (inst s') = err (inst s) /\
    data s' = data s /\ goroutines s' = goroutines s /\
    collector s' = collector s /\ panicked s' = false /\
    calls s' = calls s ++ [AbortReturned].
Proof.
  intros Hp. unfold Abort_alone. destruct (abort (inst s)) eqn:Ha; simpl ready.
  - destruct (Abort_when_open s Hp Ha) as (s' & H' & Hi & ? & ? & ? & ? & ?).
    exists s'. rewrite Hi. split_and!; done.
  - destruct (Abort_after_abort s Hp Ha) as (s' & H' & Hi & ? & ? & ? & ? & ?).
    exists s'. rewrite Hi. split_and!; done.
Qed.

Lemma Abort_uninterrupted_witness :
  exists s : State (list nat),
    execution mixed [] failure_handled = Some s /\
    panicked s = false /\
    exists s',
      exec (Abort_alone s) s = Some s' /\
      abort (inst s') = Closed /\ err (inst s') = err (inst s).
Proof.
  eexists. split; [vm_compute; reflexivity|]. split; [reflexivity|].
  match goal with
  | |- context [Abort_alone ?s] =>
      destruct (Abort_uninterrupted s) as (s' & H' & Ha & _ & He & _)
  end.
  - reflexivity.
  - exists s'. split; [exact H'|]. split; [exact Ha|exact He].
Defined.


